(** * corobus: a coroutine message bus (src/1/corobus.cpp)

    A shallow embedding of the bus, its channels and their wait queues,
    followed by the properties of the specification that were checked
    against it.

    Conventions of the embedding.
    - [size_t] values are integers in [0, 2^64); every [size_t] operation
      of the source is written with its wrap-around ([size_t_wrap]).
    - [int] descriptors are integers; the slot array [bus->channels]
      together with [bus->channel_count] is one list of slots, a slot being
      [None] for a NULL pointer and [Some ch] for a pointer to a live
      channel object (every channel object is referenced by one slot only,
      so the pointer is modelled by the object it points to).
    - The intrusive list of [wakeup_entry] records of a wait queue is the
      list of the coroutines the records refer to, oldest first.
    - The process-wide error code and the calls made to the coroutine
      runtime and to the allocator are kept in a [process] record; the
      calls are appended to its [trace] in the order they are made.
    - [data] is the name of a field of the channel; the arguments the source
      calls [data] are [word] (one word), [words] (the words to send) and
      [out] (where received words go). *)

From stdpp Require Import base numbers option list.

Open Scope Z_scope.

(** ** Machine integers *)

Definition SIZE_MAX : Z := 2 ^ 64 - 1.
Definition INT_MAX : Z := 2 ^ 31 - 1.

(** Arithmetic on [size_t] is modulo [2^64]. *)
Definition size_t_wrap (z : Z) : Z := z mod 2 ^ 64.

(** The conversion [(int)x] of a [size_t]: the low 32 bits, read as a
    two's complement number. *)
Definition int_cast (z : Z) : Z :=
  let r := z mod 2 ^ 32 in
  if r <? 2 ^ 31 then r else r - 2 ^ 32.

(** ** Data model *)

(** Modelled from the spec: the enumeration [coro_bus_error_code] is declared
    in corobus.h; its kinds are the three of section 7, under the names the
    source uses for them. *)
Inductive coro_bus_error_code : Set :=
  | CORO_BUS_ERR_NONE
  | CORO_BUS_ERR_NO_CHANNEL
  | CORO_BUS_ERR_WOULD_BLOCK.

Global Instance coro_bus_error_code_eq_dec : EqDecision coro_bus_error_code.
Proof. solve_decision. Defined.

(** A coroutine handle ([struct coro *]). *)
Definition coro : Set := nat.

(** Modelled from the spec: the intrusive list of rlist.h, which is not among
    the sources. A wait queue is "an ordered list of coroutine handles",
    FIFO; [struct wakeup_queue] is the list of the coroutines of its
    [wakeup_entry] records, oldest first. *)
Abbreviation wakeup_queue := (list coro).

(** [struct coro_bus_channel]. [data] is the array allocated by
    [new unsigned[size_limit]] (the empty list for NULL). *)
Record coro_bus_channel : Type := mk_channel {
  size_limit : Z;
  send_queue : wakeup_queue;
  recv_queue : wakeup_queue;
  data : list Z;
  head : Z;
  size : Z
}.

(** [struct coro_bus]: [channel_count] is the length of [channels]. *)
Record coro_bus : Type := mk_bus {
  channels : list (option coro_bus_channel)
}.

(** What the code does to its surroundings. *)
Inductive event : Type :=
  | ev_coro_wakeup (c : coro)
      (* coro_wakeup(c) *)
  | ev_rlist_del (c : coro)
      (* rlist_del_entry on the wakeup_entry of c *)
  | ev_coro_suspend (c : coro)
      (* coro_suspend() called by c *)
  | ev_slot_null (i : nat)
      (* bus->channels[i] = NULL *)
  | ev_delete_data (linked : list coro)
      (* delete[] ch->data; [linked] are the entries still linked in the
         two queues of ch at that moment *)
  | ev_delete_channel (linked : list coro)
      (* delete ch; [linked] as above *)
  | ev_free_bus.
      (* free(bus->channels); free(bus) *)

(** [global_error], the calls made so far, and how many times
    [coro_bus_errno_set] has stored into [global_error]. *)
Record process : Type := mk_process {
  global_error : coro_bus_error_code;
  trace : list event;
  errno_writes : nat
}.

(** A live bus and the process it lives in. *)
Record world : Type := mk_world {
  bus : coro_bus;
  proc : process
}.

Definition emit (e : event) (p : process) : process :=
  {| global_error := global_error p; trace := trace p ++ [e];
     errno_writes := errno_writes p |}.

Definition coro_bus_errno (p : process) : coro_bus_error_code :=
  global_error p.

Definition coro_bus_errno_set (err : coro_bus_error_code) (p : process)
  : process :=
  {| global_error := err; trace := trace p;
     errno_writes := S (errno_writes p) |}.

(** Modelled from the spec: [coro_wakeup] of libcoro.h, which is not among
    the sources; it "marks the coroutine runnable" and does not switch to
    it. The call is recorded. *)
Definition coro_wakeup (c : coro) (p : process) : process :=
  emit (ev_coro_wakeup c) p.

(** Field updates of a channel object. *)
Definition set_data (d : list Z) (ch : coro_bus_channel) :=
  mk_channel (size_limit ch) (send_queue ch) (recv_queue ch) d
             (head ch) (size ch).
Definition set_head (h : Z) (ch : coro_bus_channel) :=
  mk_channel (size_limit ch) (send_queue ch) (recv_queue ch) (data ch)
             h (size ch).
Definition set_size (s : Z) (ch : coro_bus_channel) :=
  mk_channel (size_limit ch) (send_queue ch) (recv_queue ch) (data ch)
             (head ch) s.
Definition set_send_queue (q : wakeup_queue) (ch : coro_bus_channel) :=
  mk_channel (size_limit ch) q (recv_queue ch) (data ch) (head ch) (size ch).
Definition set_recv_queue (q : wakeup_queue) (ch : coro_bus_channel) :=
  mk_channel (size_limit ch) (send_queue ch) q (data ch) (head ch) (size ch).

Definition channel_count (w : world) : Z :=
  Z.of_nat (length (channels (bus w))).

(** The test [channel < 0 || channel >= bus->channel_count ||
    bus->channels[channel] == NULL] of the entry points, returning the
    channel object when it passes. *)
Definition find_channel (w : world) (channel : Z) : option coro_bus_channel :=
  if (channel <? 0) || (channel >=? channel_count w) then None
  else match channels (bus w) !! Z.to_nat channel with
       | Some (Some ch) => Some ch
       | _ => None
       end.

(** The state after the object behind [bus->channels[channel]] was changed
    to [ch]. *)
Definition store_channel (channel : Z) (ch : coro_bus_channel) (w : world)
  : world :=
  {| bus := mk_bus (<[Z.to_nat channel := Some ch]> (channels (bus w)));
     proc := proc w |}.

Definition with_proc (f : process → process) (w : world) : world :=
  {| bus := bus w; proc := f (proc w) |}.

(** ** Wait queues *)

(** [wakeup_queue_wakeup_first]. The entry stays in the queue. *)
Definition wakeup_queue_wakeup_first (queue : wakeup_queue) (p : process)
  : process :=
  match queue with
  | [] => p
  | c :: _ => coro_wakeup c p
  end.

(** [wakeup_queue_wakeup_all]: the queue left behind and the calls made. *)
Fixpoint wakeup_queue_wakeup_all (queue : wakeup_queue) (p : process)
  : wakeup_queue * process :=
  match queue with
  | [] => ([], p)
  | c :: rest =>
      wakeup_queue_wakeup_all rest (coro_wakeup c (emit (ev_rlist_del c) p))
  end.

(** ** Channel objects *)

(** [channel_init] on a value-initialised object; [new_ok] says whether
    [operator new] returned memory. [new unsigned[n]] throws when the
    allocator has no memory for the array ([std::bad_alloc]), at any [n],
    and it always throws when [n * sizeof(unsigned)] is not representable
    ([std::bad_array_new_length]); a throw is the [None] here. The contents
    of a fresh array are indeterminate and are taken as zeros. *)
Definition channel_init (new_ok : bool) (limit : Z)
  : option coro_bus_channel :=
  if 0 <? limit then
    if new_ok && (limit * 4 <=? SIZE_MAX) then
      Some (mk_channel limit [] [] (replicate (Z.to_nat limit) 0) 0 0)
    else None
  else Some (mk_channel limit [] [] [] 0 0).

(** [new coro_bus_channel()] followed by [channel_init] on the new object,
    as both paths of [coro_bus_channel_open] have them; [new_ok] answers for
    the channel object as well. *)
Definition new_channel (new_ok : bool) (limit : Z)
  : option coro_bus_channel :=
  if new_ok then channel_init new_ok limit else None.

(** [channel_destroy]. *)
Definition channel_destroy (ch : coro_bus_channel) (p : process)
  : coro_bus_channel * process :=
  (mk_channel 0 (send_queue ch) (recv_queue ch) [] 0 0,
   emit (ev_delete_data (send_queue ch ++ recv_queue ch)) p).

(** ** Bus *)

(** [coro_bus_new]; [malloc_ok] says whether [malloc] returned memory. *)
Definition coro_bus_new (malloc_ok : bool) (p : process)
  : option coro_bus * process :=
  if malloc_ok then (Some (mk_bus []), coro_bus_errno_set CORO_BUS_ERR_NONE p)
  else (None, p).

(** The scan [for (i = 0; i < channel_count; ++i) if (channels[i] == NULL)]
    of [coro_bus_channel_open], from index [i] on. *)
Fixpoint first_free_slot (slots : list (option coro_bus_channel)) (i : nat)
  : option nat :=
  match slots with
  | [] => None
  | None :: _ => Some i
  | Some _ :: rest => first_free_slot rest (S i)
  end.

Inductive open_result : Type :=
  | Opened (descriptor : Z) (w : world)
      (* the descriptor is returned *)
  | OpenFailed (w : world)
      (* -1 is returned *)
  | OpenThrows
      (* new threw, for the channel object or for its array *)
  | OpenUndefined.
      (* channel_count + 1 overflows int *)

(** [coro_bus_channel_open]; [realloc_ok] says whether [realloc] returned
    memory and [new_ok] whether [operator new] did. *)
Definition coro_bus_channel_open (realloc_ok new_ok : bool) (w : world)
    (limit : Z) : open_result :=
  match first_free_slot (channels (bus w)) 0 with
  | Some i =>
      match new_channel new_ok limit with
      | Some ch =>
          Opened (Z.of_nat i)
            {| bus := mk_bus (<[i := Some ch]> (channels (bus w)));
               proc := coro_bus_errno_set CORO_BUS_ERR_NONE (proc w) |}
      | None => OpenThrows
      end
  | None =>
      let new_index := channel_count w in
      if channel_count w =? INT_MAX then OpenUndefined
      else if realloc_ok then
        match new_channel new_ok limit with
        | Some ch =>
            Opened new_index
              {| bus := mk_bus (channels (bus w) ++ [Some ch]);
                 proc := coro_bus_errno_set CORO_BUS_ERR_NONE (proc w) |}
        | None => OpenThrows
        end
      else OpenFailed w
  end.

(** [coro_bus_channel_close]. *)
Definition coro_bus_channel_close (w : world) (channel : Z) : world :=
  if (channel <? 0) || (channel >=? channel_count w) then w
  else match channels (bus w) !! Z.to_nat channel with
       | Some (Some ch) =>
           let '(sq, p1) := wakeup_queue_wakeup_all (send_queue ch) (proc w) in
           let '(rq, p2) := wakeup_queue_wakeup_all (recv_queue ch) p1 in
           let ch := set_recv_queue rq (set_send_queue sq ch) in
           let slots := <[Z.to_nat channel := None]> (channels (bus w)) in
           let p3 := emit (ev_slot_null (Z.to_nat channel)) p2 in
           let '(ch, p4) := channel_destroy ch p3 in
           let p5 :=
             emit (ev_delete_channel (send_queue ch ++ recv_queue ch)) p4 in
           {| bus := mk_bus slots; proc := p5 |}
       | _ => w
       end.

(** The loop of [coro_bus_delete] over the descriptors [i, i + n). *)
Fixpoint delete_loop (n : nat) (i : Z) (w : world) : world :=
  match n with
  | O => w
  | S n' =>
      let w' := match channels (bus w) !! Z.to_nat i with
                | Some (Some _) => coro_bus_channel_close w i
                | _ => w
                end in
      delete_loop n' (i + 1) w'
  end.

(** [coro_bus_delete]; the argument is [None] for a NULL bus. The bus is
    gone afterwards, the process stays. *)
Definition coro_bus_delete (b : option coro_bus) (p : process) : process :=
  match b with
  | None => p
  | Some b =>
      let w := delete_loop (length (channels b)) 0 (mk_world b p) in
      emit ev_free_bus (proc w)
  end.

(** ** Non-blocking operations

    Each returns the [int] result and the state it leaves. *)

(** [coro_bus_try_send]. *)
Definition coro_bus_try_send (w : world) (channel : Z) (word : Z)
  : Z * world :=
  match find_channel w channel with
  | None => (-1, with_proc (coro_bus_errno_set CORO_BUS_ERR_NO_CHANNEL) w)
  | Some ch =>
      if size ch =? size_limit ch then
        (-1, with_proc (coro_bus_errno_set CORO_BUS_ERR_WOULD_BLOCK) w)
      else
        let pos := if 0 <? size_limit ch
                   then size_t_wrap (head ch + size ch) mod size_limit ch
                   else 0 in
        let ch := if 0 <? size_limit ch
                  then set_data (<[Z.to_nat pos := word]> (data ch)) ch
                  else ch in
        let ch := set_size (size_t_wrap (size ch + 1)) ch in
        let w := store_channel channel ch w in
        let w := with_proc (coro_bus_errno_set CORO_BUS_ERR_NONE) w in
        (0, with_proc (wakeup_queue_wakeup_first (recv_queue ch)) w)
  end.

(** An [unsigned *] argument through which a word may be stored. *)
Inductive pointer : Set := NULL | NonNull.

(** [ch->data[i]]. *)
Definition read_data (ch : coro_bus_channel) (i : Z) : Z :=
  default 0 (data ch !! Z.to_nat i).

(** [coro_bus_try_recv]. The second component is the word stored through
    [out], if a store was made. *)
Definition coro_bus_try_recv (w : world) (channel : Z) (out : pointer)
  : Z * option Z * world :=
  match find_channel w channel with
  | None =>
      (-1, None, with_proc (coro_bus_errno_set CORO_BUS_ERR_NO_CHANNEL) w)
  | Some ch =>
      if size ch =? 0 then
        (-1, None, with_proc (coro_bus_errno_set CORO_BUS_ERR_WOULD_BLOCK) w)
      else
        let stored := match out with
                      | NonNull => if 0 <? size_limit ch
                                   then Some (read_data ch (head ch))
                                   else None
                      | NULL => None
                      end in
        let ch := if 0 <? size_limit ch
                  then set_head (size_t_wrap (head ch + 1) mod size_limit ch) ch
                  else ch in
        let ch := set_size (size_t_wrap (size ch - 1)) ch in
        let w := store_channel channel ch w in
        let w := with_proc (coro_bus_errno_set CORO_BUS_ERR_NONE) w in
        (0, stored, with_proc (wakeup_queue_wakeup_first (send_queue ch)) w)
  end.

(** The first loop of [coro_bus_try_broadcast]: [None] when it returns from
    inside the loop (a full channel was met), otherwise the final value of
    [existing]. *)
Fixpoint broadcast_scan (slots : list (option coro_bus_channel))
    (existing : Z) : option Z :=
  match slots with
  | [] => Some existing
  | None :: rest => broadcast_scan rest existing
  | Some ch :: rest =>
      if size ch =? size_limit ch then None
      else broadcast_scan rest (existing + 1)
  end.

(** One iteration of the second loop, on a live channel. *)
Definition broadcast_put (word : Z) (ch : coro_bus_channel)
  : coro_bus_channel :=
  let pos := if 0 <? size_limit ch
             then size_t_wrap (head ch + size ch) mod size_limit ch
             else 0 in
  let ch := if 0 <? size_limit ch
            then set_data (<[Z.to_nat pos := word]> (data ch)) ch
            else ch in
  set_size (size_t_wrap (size ch + 1)) ch.

(** The second loop of [coro_bus_try_broadcast]. *)
Fixpoint broadcast_deliver (slots : list (option coro_bus_channel))
    (word : Z) (p : process) : list (option coro_bus_channel) * process :=
  match slots with
  | [] => ([], p)
  | None :: rest =>
      let '(rest', p') := broadcast_deliver rest word p in (None :: rest', p')
  | Some ch :: rest =>
      let ch := broadcast_put word ch in
      let p := wakeup_queue_wakeup_first (recv_queue ch) p in
      let '(rest', p') := broadcast_deliver rest word p in
      (Some ch :: rest', p')
  end.

(** [coro_bus_try_broadcast]. *)
Definition coro_bus_try_broadcast (w : world) (word : Z) : Z * world :=
  match broadcast_scan (channels (bus w)) 0 with
  | None => (-1, with_proc (coro_bus_errno_set CORO_BUS_ERR_WOULD_BLOCK) w)
  | Some existing =>
      if existing =? 0 then
        (-1, with_proc (coro_bus_errno_set CORO_BUS_ERR_NO_CHANNEL) w)
      else
        let '(slots, p) :=
          broadcast_deliver (channels (bus w)) word (proc w) in
        (0, {| bus := mk_bus slots;
               proc := coro_bus_errno_set CORO_BUS_ERR_NONE p |})
  end.

(** The copy loop of [coro_bus_try_send_v] over the words it takes. The
    source computes the position without testing [size_limit]. *)
Fixpoint send_v_loop (words : list Z) (ch : coro_bus_channel)
  : coro_bus_channel :=
  match words with
  | [] => ch
  | x :: rest =>
      let pos := size_t_wrap (head ch + size ch) mod size_limit ch in
      let ch := set_data (<[Z.to_nat pos := x]> (data ch)) ch in
      send_v_loop rest (set_size (size_t_wrap (size ch + 1)) ch)
  end.

(** [coro_bus_try_send_v]. The pair [data], [count] of the source is the
    list [words] of the [count] words at [data]. *)
Definition coro_bus_try_send_v (w : world) (channel : Z) (words : list Z)
  : Z * world :=
  match find_channel w channel with
  | None => (-1, with_proc (coro_bus_errno_set CORO_BUS_ERR_NO_CHANNEL) w)
  | Some ch =>
      if size ch =? size_limit ch then
        (-1, with_proc (coro_bus_errno_set CORO_BUS_ERR_WOULD_BLOCK) w)
      else
        let count := Z.of_nat (length words) in
        let free_space := size_t_wrap (size_limit ch - size ch) in
        let to_send := if count >? free_space then free_space else count in
        let ch := send_v_loop (take (Z.to_nat to_send) words) ch in
        let w := store_channel channel ch w in
        let w := with_proc (coro_bus_errno_set CORO_BUS_ERR_NONE) w in
        let w := if to_send >? 0
                 then with_proc (wakeup_queue_wakeup_first (recv_queue ch)) w
                 else w in
        (int_cast to_send, w)
  end.

(** The copy loop of [coro_bus_try_recv_v], [n] iterations: the words
    stored into the caller's array, and the channel. *)
Fixpoint recv_v_loop (n : nat) (ch : coro_bus_channel)
  : list Z * coro_bus_channel :=
  match n with
  | O => ([], ch)
  | S n' =>
      let x := read_data ch (head ch) in
      let ch := set_head (size_t_wrap (head ch + 1) mod size_limit ch) ch in
      let '(out, ch) := recv_v_loop n' ch in
      (x :: out, ch)
  end.

(** [coro_bus_try_recv_v]; [capacity] is the room in the caller's array. *)
Definition coro_bus_try_recv_v (w : world) (channel : Z) (capacity : Z)
  : Z * list Z * world :=
  match find_channel w channel with
  | None =>
      (-1, [], with_proc (coro_bus_errno_set CORO_BUS_ERR_NO_CHANNEL) w)
  | Some ch =>
      if size ch =? 0 then
        (-1, [], with_proc (coro_bus_errno_set CORO_BUS_ERR_WOULD_BLOCK) w)
      else
        let to_recv := if capacity >? size ch then size ch else capacity in
        let '(out, ch) := recv_v_loop (Z.to_nat to_recv) ch in
        let ch := set_size (size_t_wrap (size ch - to_recv)) ch in
        let w := store_channel channel ch w in
        let w := with_proc (coro_bus_errno_set CORO_BUS_ERR_NONE) w in
        (int_cast to_recv, out,
         with_proc (wakeup_queue_wakeup_first (send_queue ch)) w)
  end.

(** ** Blocking operations

    A blocking operation suspends its coroutine inside
    [wakeup_queue_suspend_this]; until it is resumed the other coroutines
    run and change the state. A schedule gives, for each suspension of the
    caller in turn, what the others made of the state in the meantime. A
    blocking operation returns [None] when the schedule ends while the
    caller is still suspended. *)

Abbreviation schedule := (list (world → world)).

Inductive queue_kind : Set := SendQueue | RecvQueue.

(** Modelled from the spec: [rlist_add_tail_entry] of rlist.h, "append a
    waiter record referring to the current coroutine to the tail" of the
    chosen queue of the channel behind [channel]. *)
Definition link_entry (self : coro) (channel : Z) (k : queue_kind) (w : world)
  : world :=
  match find_channel w channel with
  | None => w
  | Some ch =>
      let ch := match k with
                | SendQueue => set_send_queue (send_queue ch ++ [self]) ch
                | RecvQueue => set_recv_queue (recv_queue ch ++ [self]) ch
                end in
      store_channel channel ch w
  end.

Definition remove_coro (self : coro) (queue : wakeup_queue) : wakeup_queue :=
  filter (λ c, c ≠ self) queue.

(** Modelled from the spec: [rlist_del_entry] of rlist.h on the entry of
    [self], "on resumption detach the record": the entry leaves the list it
    is linked in, if any (an entry already detached by
    [wakeup_queue_wakeup_all] is in none). *)
Definition unlink_entry (self : coro) (w : world) : world :=
  {| bus := mk_bus
       (fmap (M := list)
          (fmap (M := option)
             (λ ch, set_recv_queue (remove_coro self (recv_queue ch))
                      (set_send_queue (remove_coro self (send_queue ch)) ch)))
          (channels (bus w)));
     proc := emit (ev_rlist_del self) (proc w) |}.

(** [wakeup_queue_suspend_this] on a queue of the channel behind [channel];
    [self] is [coro_this()] and [others] is what happens between
    [coro_suspend()] and the resumption. *)
Definition wakeup_queue_suspend_this (self : coro) (channel : Z)
    (k : queue_kind) (others : world → world) (w : world) : world :=
  let w := link_entry self channel k w in
  let w := with_proc (emit (ev_coro_suspend self)) w in
  let w := others w in
  unlink_entry self w.

(** The pointer [ch] the blocking loops compute after a success:
    [bus->channels[channel]] when [channel] is in range, NULL otherwise. *)
Definition channel_at (w : world) (channel : Z) : option coro_bus_channel :=
  if (0 <=? channel) && (channel <? channel_count w)
  then match channels (bus w) !! Z.to_nat channel with
       | Some slot => slot
       | None => None
       end
  else None.

Definition wake_if (cond : coro_bus_channel → bool)
    (queue : coro_bus_channel → wakeup_queue) (w : world) (channel : Z)
  : world :=
  match channel_at w channel with
  | Some ch =>
      if cond ch then with_proc (wakeup_queue_wakeup_first (queue ch)) w
      else w
  | None => w
  end.

(** [coro_bus_send]. *)
Fixpoint coro_bus_send (sched : schedule) (self : coro) (w : world)
    (channel word : Z) : option (Z * world) :=
  let '(rc, w) := coro_bus_try_send w channel word in
  if rc =? 0 then
    Some (0, wake_if (λ ch, size ch <? size_limit ch) send_queue w channel)
  else if decide (coro_bus_errno (proc w) ≠ CORO_BUS_ERR_WOULD_BLOCK) then
    Some (-1, w)
  else match find_channel w channel with
       | None =>
           Some (-1, with_proc (coro_bus_errno_set CORO_BUS_ERR_NO_CHANNEL) w)
       | Some _ =>
           match sched with
           | [] => None
           | others :: sched' =>
               coro_bus_send sched' self
                 (wakeup_queue_suspend_this self channel SendQueue others w)
                 channel word
           end
       end.

(** [coro_bus_recv]. *)
Fixpoint coro_bus_recv (sched : schedule) (self : coro) (w : world)
    (channel : Z) (out : pointer) : option (Z * option Z * world) :=
  let '(rc, stored, w) := coro_bus_try_recv w channel out in
  if rc =? 0 then
    Some (0, stored, wake_if (λ ch, size ch >? 0) recv_queue w channel)
  else if decide (coro_bus_errno (proc w) ≠ CORO_BUS_ERR_WOULD_BLOCK) then
    Some (-1, stored, w)
  else match find_channel w channel with
       | None =>
           Some (-1, stored,
                 with_proc (coro_bus_errno_set CORO_BUS_ERR_NO_CHANNEL) w)
       | Some _ =>
           match sched with
           | [] => None
           | others :: sched' =>
               coro_bus_recv sched' self
                 (wakeup_queue_suspend_this self channel RecvQueue others w)
                 channel out
           end
       end.

(** The search of [coro_bus_broadcast] for a full channel, from index [i]. *)
Fixpoint first_full_slot (slots : list (option coro_bus_channel)) (i : nat)
  : option nat :=
  match slots with
  | [] => None
  | Some ch :: rest =>
      if size ch =? size_limit ch then Some i
      else first_full_slot rest (S i)
  | None :: rest => first_full_slot rest (S i)
  end.

(** [coro_bus_broadcast]. Two of its paths go round the loop without
    suspending, so the iterations are counted by [fuel] as well. *)
Fixpoint coro_bus_broadcast (fuel : nat) (sched : schedule) (self : coro)
    (w : world) (word : Z) : option (Z * world) :=
  match fuel with
  | O => None
  | S fuel' =>
      let '(rc, w) := coro_bus_try_broadcast w word in
      if rc =? 0 then Some (0, w)
      else if decide (coro_bus_errno (proc w) ≠ CORO_BUS_ERR_WOULD_BLOCK) then
        Some (-1, w)
      else match first_full_slot (channels (bus w)) 0 with
           | None => coro_bus_broadcast fuel' sched self w word
           | Some wait_idx =>
               match channels (bus w) !! wait_idx with
               | Some (Some _) =>
                   match sched with
                   | [] => None
                   | others :: sched' =>
                       coro_bus_broadcast fuel' sched' self
                         (wakeup_queue_suspend_this self (Z.of_nat wait_idx)
                            SendQueue others w)
                         word
                   end
               | _ => coro_bus_broadcast fuel' sched self w word
               end
           end
  end.

(** [coro_bus_send_v]. *)
Fixpoint coro_bus_send_v (sched : schedule) (self : coro) (w : world)
    (channel : Z) (words : list Z) : option (Z * world) :=
  let '(rc, w) := coro_bus_try_send_v w channel words in
  if rc >=? 0 then
    Some (rc, wake_if (λ ch, size ch <? size_limit ch) send_queue w channel)
  else if decide (coro_bus_errno (proc w) ≠ CORO_BUS_ERR_WOULD_BLOCK) then
    Some (-1, w)
  else match find_channel w channel with
       | None =>
           Some (-1, with_proc (coro_bus_errno_set CORO_BUS_ERR_NO_CHANNEL) w)
       | Some _ =>
           match sched with
           | [] => None
           | others :: sched' =>
               coro_bus_send_v sched' self
                 (wakeup_queue_suspend_this self channel SendQueue others w)
                 channel words
           end
       end.

(** [coro_bus_recv_v]. *)
Fixpoint coro_bus_recv_v (sched : schedule) (self : coro) (w : world)
    (channel capacity : Z) : option (Z * list Z * world) :=
  let '(rc, out, w) := coro_bus_try_recv_v w channel capacity in
  if rc >=? 0 then
    Some (rc, out, wake_if (λ ch, size ch >? 0) recv_queue w channel)
  else if decide (coro_bus_errno (proc w) ≠ CORO_BUS_ERR_WOULD_BLOCK) then
    Some (-1, out, w)
  else match find_channel w channel with
       | None =>
           Some (-1, out,
                 with_proc (coro_bus_errno_set CORO_BUS_ERR_NO_CHANNEL) w)
       | Some _ =>
           match sched with
           | [] => None
           | others :: sched' =>
               coro_bus_recv_v sched' self
                 (wakeup_queue_suspend_this self channel RecvQueue others w)
                 channel capacity
           end
       end.

(** ** Well-formed states *)

(** The invariant of a live channel: the occupancy and the head are in
    range and [data] is an array of [size_limit] words that [new] could
    allocate. *)
Definition chan_wf (ch : coro_bus_channel) : Prop :=
  0 ≤ size ch ≤ size_limit ch ∧
  0 ≤ head ch < Z.max (size_limit ch) 1 ∧
  Z.of_nat (length (data ch)) = size_limit ch ∧
  size_limit ch * 4 ≤ SIZE_MAX.

Definition slot_wf (slot : option coro_bus_channel) : Prop :=
  match slot with
  | Some ch => chan_wf ch
  | None => True
  end.

Definition bus_wf (w : world) : Prop :=
  Forall slot_wf (channels (bus w)) ∧ channel_count w ≤ INT_MAX.

(** The words held by a channel, oldest first: the word at logical position
    [k] is the one at index [(head + k) mod size_limit] of the array. *)
Definition contents (ch : coro_bus_channel) : list Z :=
  (λ k, read_data ch ((head ch + k) mod size_limit ch)) <$> seqZ 0 (size ch).

(** The channel after a word was appended at its tail, and after its oldest
    word was dropped. *)
Definition chan_push (word : Z) (ch : coro_bus_channel) : coro_bus_channel :=
  mk_channel (size_limit ch) (send_queue ch) (recv_queue ch)
    (<[Z.to_nat ((head ch + size ch) mod size_limit ch) := word]> (data ch))
    (head ch) (size ch + 1).

Definition chan_pop (ch : coro_bus_channel) : coro_bus_channel :=
  mk_channel (size_limit ch) (send_queue ch) (recv_queue ch) (data ch)
    ((head ch + 1) mod size_limit ch) (size ch - 1).

(** The calls a wake-first on [queue] makes. *)
Definition wake_first_events (queue : wakeup_queue) : list event :=
  match queue with
  | [] => []
  | c :: _ => [ev_coro_wakeup c]
  end.

(** The calls a wake-all on [queue] makes. *)
Definition wake_all_events (queue : wakeup_queue) : list event :=
  queue ≫= λ c, [ev_rlist_del c; ev_coro_wakeup c].


(** A run of non-blocking sends and receives on one channel. *)
Inductive channel_op : Set :=
  | op_send (word : Z)
  | op_recv.

(** The words whose send succeeded and the words received, each in the
    order of the calls, and the state after the run. *)
Fixpoint run_ops (ops : list channel_op) (w : world) (channel : Z)
  : list Z * list Z * world :=
  match ops with
  | [] => ([], [], w)
  | op_send word :: rest =>
      let '(rc, w) := coro_bus_try_send w channel word in
      let '(sent, received, w) := run_ops rest w channel in
      (if rc =? 0 then word :: sent else sent, received, w)
  | op_recv :: rest =>
      let '(_, stored, w) := coro_bus_try_recv w channel NonNull in
      let '(sent, received, w) := run_ops rest w channel in
      (sent, from_option (λ x, x :: received) received stored, w)
  end.

(** The state a successful [coro_bus_try_send] leaves, and the one a
    successful [coro_bus_try_recv] leaves, on the channel [ch] found behind
    [channel]. *)
Definition after_send (channel word : Z) (ch : coro_bus_channel) (w : world)
  : world :=
  with_proc (wakeup_queue_wakeup_first (recv_queue ch))
    (with_proc (coro_bus_errno_set CORO_BUS_ERR_NONE)
       (store_channel channel (chan_push word ch) w)).

Definition after_recv (channel : Z) (ch : coro_bus_channel) (w : world)
  : world :=
  with_proc (wakeup_queue_wakeup_first (send_queue ch))
    (with_proc (coro_bus_errno_set CORO_BUS_ERR_NONE)
       (store_channel channel (chan_pop ch) w)).

(** ** Sample states *)

Definition quiet : process := mk_process CORO_BUS_ERR_NONE [] 0.

(** A channel for two words holding the word 7, on a bus of its own. *)
Definition sample_channel : coro_bus_channel :=
  mk_channel 2 [] [] [0; 7] 1 1.

Definition sample_world : world :=
  mk_world (mk_bus [Some sample_channel]) quiet.

(** The live channels of a bus, in the order of their descriptors. *)
Definition open_channels (w : world) : list coro_bus_channel :=
  omap id (channels (bus w)).

(** [p] after the calls [evs] were made. *)
Definition emit_all (evs : list event) (p : process) : process :=
  {| global_error := global_error p; trace := trace p ++ evs;
     errno_writes := errno_writes p |}.

(** A bus with a channel for two words holding one, on which coroutine 5
    waits to receive, a free slot, and an empty channel for one word. *)
Definition sample_bus : coro_bus :=
  mk_bus [Some (mk_channel 2 [] [5%nat] [0; 7] 1 1);
          None;
          Some (mk_channel 1 [] [] [0] 0 0)].

Definition sample_world2 : world := mk_world sample_bus quiet.

(** A bus whose second channel was opened with capacity 0. *)
Definition sample_world3 : world :=
  mk_world (mk_bus [Some sample_channel; Some (mk_channel 0 [] [] [] 0 0)])
           quiet.

(** A full channel for two words on which coroutine 3 waits to send. *)
Definition sample_world4 : world :=
  mk_world (mk_bus [Some (mk_channel 2 [3%nat] [] [8; 7] 1 2)])
           (mk_process CORO_BUS_ERR_WOULD_BLOCK [] 1).

(** One call of [coro_bus_channel_open]: the capacity asked for and what the
    allocator answers during the call. *)
Record open_request : Type := mk_request {
  req_realloc_ok : bool;
  req_new_ok : bool;
  req_limit : Z
}.

(** Opening channels one after the other: the descriptors returned, and the
    state reached; [None] when one of the calls does not return a
    descriptor. *)
Fixpoint open_all (requests : list open_request) (w : world)
  : option (list Z * world) :=
  match requests with
  | [] => Some ([], w)
  | r :: rest =>
      match coro_bus_channel_open (req_realloc_ok r) (req_new_ok r) w
              (req_limit r) with
      | Opened d w' =>
          match open_all rest w' with
          | Some (ds, w'') => Some (d :: ds, w'')
          | None => None
          end
      | _ => None
      end
  end.

(** The size in bytes of an array of [limit] words is representable. This
    is needed for [new unsigned[limit]] to return memory, and is not enough:
    the allocator has to have the memory as well. *)
Definition array_size_fits (limit : Z) : Prop := limit * 4 ≤ SIZE_MAX.

(** The allocator gives the request all it asks for. *)
Definition granted (r : open_request) : Prop :=
  req_realloc_ok r = true ∧ req_new_ok r = true ∧
  array_size_fits (req_limit r).

(** In the sequence of calls [tr], a call [e1] is made before a call [e2]. *)
Definition precedes (e1 e2 : event) (tr : list event) : Prop :=
  ∃ l1 l2 l3, tr = l1 ++ e1 :: l2 ++ e2 :: l3.

(** ** The entry points as calls

    The calls that act on a live bus. [run_call] gives the value returned
    ([None] for a [void] function) and the state left; it is [None] when the
    call does not return: [coro_bus_channel_open] threw or overflowed, or
    the schedule of a blocking call ended with the caller suspended. *)
Inductive call : Type :=
  | call_channel_open (realloc_ok new_ok : bool) (limit : Z)
  | call_channel_close (channel : Z)
  | call_try_send (channel word : Z)
  | call_try_recv (channel : Z) (out : pointer)
  | call_try_broadcast (word : Z)
  | call_try_send_v (channel : Z) (words : list Z)
  | call_try_recv_v (channel capacity : Z)
  | call_send (sched : schedule) (self : coro) (channel word : Z)
  | call_recv (sched : schedule) (self : coro) (channel : Z) (out : pointer)
  | call_broadcast (fuel : nat) (sched : schedule) (self : coro) (word : Z)
  | call_send_v (sched : schedule) (self : coro) (channel : Z)
      (words : list Z)
  | call_recv_v (sched : schedule) (self : coro) (channel capacity : Z).

Definition run_call (c : call) (w : world) : option (option Z * world) :=
  match c with
  | call_channel_open realloc_ok new_ok limit =>
      match coro_bus_channel_open realloc_ok new_ok w limit with
      | Opened d w' => Some (Some d, w')
      | OpenFailed w' => Some (Some (-1), w')
      | OpenThrows | OpenUndefined => None
      end
  | call_channel_close channel =>
      Some (None, coro_bus_channel_close w channel)
  | call_try_send channel word =>
      let '(rc, w') := coro_bus_try_send w channel word in Some (Some rc, w')
  | call_try_recv channel out =>
      let '(rc, _, w') := coro_bus_try_recv w channel out in
      Some (Some rc, w')
  | call_try_broadcast word =>
      let '(rc, w') := coro_bus_try_broadcast w word in Some (Some rc, w')
  | call_try_send_v channel words =>
      let '(rc, w') := coro_bus_try_send_v w channel words in
      Some (Some rc, w')
  | call_try_recv_v channel capacity =>
      let '(rc, _, w') := coro_bus_try_recv_v w channel capacity in
      Some (Some rc, w')
  | call_send sched self channel word =>
      '(rc, w') ← coro_bus_send sched self w channel word; Some (Some rc, w')
  | call_recv sched self channel out =>
      '(rc, _, w') ← coro_bus_recv sched self w channel out;
      Some (Some rc, w')
  | call_broadcast fuel sched self word =>
      '(rc, w') ← coro_bus_broadcast fuel sched self w word;
      Some (Some rc, w')
  | call_send_v sched self channel words =>
      '(rc, w') ← coro_bus_send_v sched self w channel words;
      Some (Some rc, w')
  | call_recv_v sched self channel capacity =>
      '(rc, _, w') ← coro_bus_recv_v sched self w channel capacity;
      Some (Some rc, w')
  end.

(** The shape the blocking loops of [coro_bus_send], [coro_bus_recv],
    [coro_bus_send_v] and [coro_bus_recv_v] share: [attempt] is the
    non-blocking call, [ok] the test of its result, [cond] and [queue] the
    wake-up made after a success, [k] the queue to wait in. *)
Fixpoint retry_loop (attempt : world → Z * world) (ok : Z → bool)
    (cond : coro_bus_channel → bool)
    (queue : coro_bus_channel → wakeup_queue) (k : queue_kind)
    (self : coro) (channel : Z) (sched : schedule) (w : world)
  : option (Z * world) :=
  let '(rc, w) := attempt w in
  if ok rc then Some (rc, wake_if cond queue w channel)
  else if decide (coro_bus_errno (proc w) ≠ CORO_BUS_ERR_WOULD_BLOCK) then
    Some (-1, w)
  else match find_channel w channel with
       | None =>
           Some (-1, with_proc (coro_bus_errno_set CORO_BUS_ERR_NO_CHANNEL) w)
       | Some _ =>
           match sched with
           | [] => None
           | others :: sched' =>
               retry_loop attempt ok cond queue k self channel sched'
                 (wakeup_queue_suspend_this self channel k others w)
           end
       end.

(** A non-blocking call without the words it stored. *)
Definition try_recv_rc (channel : Z) (out : pointer) (w : world) : Z * world :=
  let '(rc, _, w') := coro_bus_try_recv w channel out in (rc, w').

Definition try_recv_v_rc (channel capacity : Z) (w : world) : Z * world :=
  let '(rc, _, w') := coro_bus_try_recv_v w channel capacity in (rc, w').

Definition drop_stored {A} (r : Z * A * world) : Z * world := (r.1.1, r.2).

(** What one call of a non-blocking operation on [channel] does, as far as
    the blocking loops and the invariants are concerned: it stores the error
    code once, keeps a well-formed bus well-formed, and either fails on a
    missing channel, or fails on a channel in the wrong state, in both cases
    leaving the bus alone, or succeeds. [fits] says that the count it returns
    on success is representable as a non-negative [int]. *)
Definition attempt_facts (channel : Z) (ok : Z → bool) (fits : Prop)
    (w : world) (rc : Z) (w1 : world) : Prop :=
  errno_writes (proc w1) = S (errno_writes (proc w)) ∧
  (bus_wf w → bus_wf w1) ∧
  (find_channel w channel = None ∧ rc = -1 ∧ bus w1 = bus w ∧
   global_error (proc w1) = CORO_BUS_ERR_NO_CHANNEL
   ∨
   is_Some (find_channel w channel) ∧ rc = -1 ∧ bus w1 = bus w ∧
   global_error (proc w1) = CORO_BUS_ERR_WOULD_BLOCK
   ∨
   is_Some (find_channel w channel) ∧ (fits → ok rc = true) ∧
   global_error (proc w1) = CORO_BUS_ERR_NONE).

(** ** Conditions on calls *)

(** The transitions of the other coroutines keep the bus well-formed. *)
Definition keeps_wf (others : world → world) : Prop :=
  ∀ x, bus_wf x → bus_wf (others x).

(** The other coroutines do not undo stores into the error code. *)
Definition keeps_writes (others : world → world) : Prop :=
  ∀ x, (errno_writes (proc x) ≤ errno_writes (proc (others x)))%nat.

(** The schedule of a blocking call. *)
Definition call_schedule (c : call) : schedule :=
  match c with
  | call_send sched _ _ _ | call_recv sched _ _ _
  | call_broadcast _ sched _ _ | call_send_v sched _ _ _
  | call_recv_v sched _ _ _ => sched
  | _ => []
  end.

Definition blocking (c : call) : Prop :=
  match c with
  | call_send _ _ _ _ | call_recv _ _ _ _ | call_broadcast _ _ _ _
  | call_send_v _ _ _ _ | call_recv_v _ _ _ _ => True
  | _ => False
  end.

(** The arguments of unsigned types are not negative. *)
Definition call_typed (c : call) : Prop :=
  match c with
  | call_channel_open _ _ limit => 0 ≤ limit
  | call_try_recv_v _ capacity | call_recv_v _ _ _ capacity => 0 ≤ capacity
  | _ => True
  end.

(** What a blocking call acts on is not there: the descriptor finds no
    channel, or, for a broadcast, no channel is open. *)
Definition target_gone (c : call) (w : world) : Prop :=
  match c with
  | call_send _ _ channel _ | call_recv _ _ channel _
  | call_send_v _ _ channel _ | call_recv_v _ _ channel _ =>
      find_channel w channel = None
  | call_broadcast _ _ _ _ => open_channels w = []
  | _ => True
  end.

(** The count a vectorised call can return fits an [int]. *)
Definition batch_fits (c : call) : Prop :=
  match c with
  | call_send_v _ _ _ words => Z.of_nat (length words) ≤ INT_MAX
  | call_recv_v _ _ _ capacity => capacity ≤ INT_MAX
  | _ => True
  end.

(** A schedule whose only step closes channel 0. *)
Definition close_while_blocked : schedule :=
  [λ w, coro_bus_channel_close w 0].

(** A full channel for one word. *)
Definition sample_world5 : world :=
  mk_world (mk_bus [Some (mk_channel 1 [] [] [7] 0 1)]) quiet.

(** What a call that returned [rc] did to the error code between [p] and
    [p']: it stored into it, [CORO_BUS_ERR_NONE] if the result is not
    negative, and anything else only with the result -1. *)
Definition errno_reported (rc : Z) (p p' : process) : Prop :=
  (errno_writes p < errno_writes p')%nat ∧
  (0 ≤ rc → global_error p' = CORO_BUS_ERR_NONE) ∧
  (global_error p' ≠ CORO_BUS_ERR_NONE → rc = -1).

(** The error code was not touched. *)
Definition errno_untouched (p p' : process) : Prop :=
  global_error p' = global_error p ∧ errno_writes p' = errno_writes p.

(** What another coroutine makes of the state by one call. *)
Definition call_step (c : call) (w : world) : world :=
  match run_call c w with
  | Some (_, w') => w'
  | None => w
  end.

(** What the other coroutines can do to the state without being suspended
    themselves: a call that does not block, [coro_bus_errno_set], and the
    pieces of a blocking call between two suspensions (joining a queue,
    leaving it on resumption, the wake-up after a success). *)
Inductive atomic_step : (world → world) → Prop :=
  | step_call c :
      ¬ blocking c → call_typed c → atomic_step (call_step c)
  | step_errno_set err :
      atomic_step (with_proc (coro_bus_errno_set err))
  | step_link self channel k :
      atomic_step (λ w, with_proc (emit (ev_coro_suspend self))
                          (link_entry self channel k w))
  | step_unlink self :
      atomic_step (unlink_entry self)
  | step_wake cond queue channel :
      atomic_step (λ w, wake_if cond queue w channel).

(** A transition of the other coroutines: atomic steps one after the
    other. *)
Definition cooperative (others : world → world) : Prop :=
  ∃ steps, Forall atomic_step steps ∧
           ∀ w, others w = foldl (λ x step, step x) w steps.

(** The states of a bus from its creation on: each call is made with
    arguments of its types, and while a blocking call is suspended the other
    coroutines make atomic steps. *)
Inductive reachable : world → Prop :=
  | reach_new p b p' :
      coro_bus_new true p = (Some b, p') → reachable (mk_world b p')
  | reach_call c w r w' :
      reachable w → call_typed c → Forall cooperative (call_schedule c) →
      run_call c w = Some (r, w') → reachable w'.

(** A fresh bus on which a channel of capacity 0 and a channel of capacity 1
    were opened, after a send on each. *)
Definition sample_run : world :=
  let w := mk_world (mk_bus []) (coro_bus_errno_set CORO_BUS_ERR_NONE quiet) in
  let w := call_step (call_channel_open true true 0) w in
  let w := call_step (call_channel_open true true 1) w in
  let w := call_step (call_try_send 0 5) w in
  call_step (call_try_send 1 6) w.
(** ** Basic facts *)

Lemma size_t_wrap_small z : 0 ≤ z < 2 ^ 64 → size_t_wrap z = z.
Proof. intros. unfold size_t_wrap. by apply Z.mod_small. Qed.

Lemma int_cast_small z : 0 ≤ z < 2 ^ 31 → int_cast z = z.
Proof.
  intros Hz. unfold int_cast.
  rewrite Z.mod_small by lia.
  destruct (Z.ltb_spec z (2 ^ 31)); lia.
Qed.

Lemma find_channel_Some w channel ch :
  find_channel w channel = Some ch ↔
  0 ≤ channel ∧ channels (bus w) !! Z.to_nat channel = Some (Some ch).
Proof.
  unfold find_channel, channel_count. split.
  - destruct (Z.ltb_spec channel 0); simpl; [done|].
    destruct (channel >=? _); simpl; [done|].
    destruct (channels (bus w) !! Z.to_nat channel) as [[?|]|]; naive_solver.
  - intros [Hc Hl]. pose proof (lookup_lt_Some _ _ _ Hl) as Hlt.
    destruct (Z.ltb_spec channel 0); [lia|].
    destruct (Z.geb_spec channel (Z.of_nat (length (channels (bus w)))));
      [lia|]. simpl. by rewrite Hl.
Qed.

Lemma find_channel_None w channel :
  find_channel w channel = None ↔
  channel < 0 ∨ channel_count w ≤ channel ∨
  channels (bus w) !! Z.to_nat channel = Some None.
Proof.
  unfold find_channel, channel_count. split.
  - destruct (Z.ltb_spec channel 0); simpl; [auto|].
    destruct (Z.geb_spec channel (Z.of_nat (length (channels (bus w)))));
      simpl; [auto|].
    destruct (channels (bus w) !! Z.to_nat channel) as [[?|]|] eqn:E;
      [done|auto|].
    apply lookup_ge_None in E. lia.
  - intros [H|[H|H]].
    + destruct (Z.ltb_spec channel 0); [done|lia].
    + destruct (Z.geb_spec channel (Z.of_nat (length (channels (bus w)))));
        [|lia]. by rewrite orb_true_r.
    + rewrite H. by destruct (_ || _).
Qed.

Lemma find_channel_with_proc f w channel :
  find_channel (with_proc f w) channel = find_channel w channel.
Proof. done. Qed.

Lemma find_channel_store w channel ch ch' :
  find_channel w channel = Some ch →
  find_channel (store_channel channel ch' w) channel = Some ch'.
Proof.
  rewrite !find_channel_Some. intros [Hc Hl]. split; [done|]. simpl.
  apply list_lookup_insert_eq. by eapply lookup_lt_Some.
Qed.

Lemma find_channel_store_ne w channel channel' ch' :
  0 ≤ channel → 0 ≤ channel' → channel ≠ channel' →
  find_channel (store_channel channel ch' w) channel' =
  find_channel w channel'.
Proof.
  intros ? ? Hne. unfold find_channel, channel_count, store_channel. simpl.
  rewrite length_insert, list_lookup_insert_ne by lia. done.
Qed.

Lemma bus_wf_lookup w i ch :
  bus_wf w → channels (bus w) !! i = Some (Some ch) → chan_wf ch.
Proof.
  intros [Hall _] Hl. by apply (Forall_lookup_1 _ _ _ _ Hall Hl).
Qed.

Lemma bus_wf_find w channel ch :
  bus_wf w → find_channel w channel = Some ch → chan_wf ch.
Proof. rewrite find_channel_Some. intros ? [_ ?]. by eapply bus_wf_lookup. Qed.

Lemma bus_wf_with_proc f w : bus_wf w → bus_wf (with_proc f w).
Proof. done. Qed.

Lemma bus_wf_store w channel ch :
  bus_wf w → chan_wf ch → bus_wf (store_channel channel ch w).
Proof.
  intros [Hall Hcnt] Hch. split; simpl.
  - by apply Forall_insert.
  - unfold channel_count in *. simpl. by rewrite length_insert.
Qed.

(** ** The ring of a channel *)

Section ring.
Variable ch : coro_bus_channel.
Hypothesis Hwf : chan_wf ch.

Let L := size_limit ch.

Lemma ring_index_lt k : 0 < L → (Z.to_nat (k mod L) < length (data ch))%nat.
Proof.
  intros HL. destruct Hwf as (_ & _ & Hlen & _). fold L in Hlen.
  pose proof (Z.mod_pos_bound k L HL). lia.
Qed.

Lemma ring_index_ne a b :
  0 ≤ a < b → b - a < L → Z.to_nat (a mod L) ≠ Z.to_nat (b mod L).
Proof.
  intros Hab Hlt Heq.
  assert (0 < L) as HL by lia.
  pose proof (Z.mod_pos_bound a L HL). pose proof (Z.mod_pos_bound b L HL).
  assert (a mod L = b mod L) as E by lia.
  assert ((b - a) mod L = 0) as E0.
  { by rewrite Zminus_mod, E, Z.sub_diag, Z.mod_0_l by lia. }
  rewrite Z.mod_small in E0 by lia. lia.
Qed.

Lemma head_plus_size_no_wrap : size_t_wrap (head ch + size ch) = head ch + size ch.
Proof.
  destruct Hwf as (Hs & Hh & _ & Hcap). apply size_t_wrap_small.
  unfold SIZE_MAX in Hcap. lia.
Qed.

Lemma chan_push_wf word : size ch ≠ L → chan_wf (chan_push word ch).
Proof.
  intros Hne. destruct Hwf as (Hs & Hh & Hlen & Hcap). subst L.
  unfold chan_wf, chan_push. simpl. rewrite length_insert. lia.
Qed.

Lemma contents_push word :
  size ch ≠ L → contents (chan_push word ch) = contents ch ++ [word].
Proof.
  intros Hne. destruct Hwf as (Hs & Hh & Hlen & Hcap). fold L in Hs, Hh, Hlen.
  assert (0 < L) as HL by lia.
  unfold contents, chan_push. simpl. fold L.
  rewrite seqZ_app, fmap_app by lia. f_equal.
  - apply Forall_fmap_ext, Forall_seqZ. intros k Hk.
    unfold read_data. simpl.
    rewrite list_lookup_insert_ne; [done|].
    apply not_eq_sym, ring_index_ne; lia.
  - rewrite seqZ_cons, seqZ_nil by lia. simpl.
    unfold read_data. simpl. rewrite Z.add_0_l.
    by rewrite list_lookup_insert_eq by by apply ring_index_lt.
Qed.

Lemma chan_pop_wf : size ch ≠ 0 → chan_wf (chan_pop ch).
Proof.
  intros Hne. destruct Hwf as (Hs & Hh & Hlen & Hcap). fold L in Hs, Hh, Hlen.
  assert (0 < L) as HL by lia.
  pose proof (Z.mod_pos_bound (head ch + 1) L HL).
  unfold chan_wf, chan_pop. simpl. fold L. lia.
Qed.

Lemma contents_pop :
  size ch ≠ 0 →
  contents ch = read_data ch (head ch) :: contents (chan_pop ch).
Proof.
  intros Hne. destruct Hwf as (Hs & Hh & Hlen & Hcap). fold L in Hs, Hh, Hlen.
  assert (0 < L) as HL by lia.
  unfold contents, chan_pop. simpl. fold L.
  rewrite (seqZ_cons 0) by lia. simpl.
  rewrite Z.add_0_r, (Z.mod_small (head ch)) by lia. f_equal.
  replace (Z.succ 0) with (1 + 0) by lia.
  rewrite <- fmap_add_seqZ, <- list_fmap_compose.
  replace (Z.pred (size ch)) with (size ch - 1) by lia.
  apply list_fmap_ext. intros _ k _. simpl. unfold read_data. simpl.
  do 3 f_equal. rewrite Zplus_mod_idemp_l. f_equal. lia.
Qed.

Lemma contents_lookup k :
  0 ≤ k < size ch →
  contents ch !! Z.to_nat k = Some (read_data ch ((head ch + k) mod L)).
Proof.
  intros Hk. unfold contents. rewrite list_lookup_fmap.
  rewrite lookup_seqZ_lt by lia. simpl. do 4 f_equal. lia.
Qed.

Lemma contents_length : length (contents ch) = Z.to_nat (size ch).
Proof. unfold contents. by rewrite length_fmap, length_seqZ. Qed.
End ring.

(** ** [coro_bus_try_send] and [coro_bus_try_recv] *)

Lemma try_send_no_channel w channel word :
  find_channel w channel = None →
  coro_bus_try_send w channel word =
  (-1, with_proc (coro_bus_errno_set CORO_BUS_ERR_NO_CHANNEL) w).
Proof. intros H. unfold coro_bus_try_send. by rewrite H. Qed.

Lemma try_send_full w channel ch word :
  find_channel w channel = Some ch → size ch = size_limit ch →
  coro_bus_try_send w channel word =
  (-1, with_proc (coro_bus_errno_set CORO_BUS_ERR_WOULD_BLOCK) w).
Proof.
  intros H E. unfold coro_bus_try_send. rewrite H, E. by rewrite Z.eqb_refl.
Qed.

Lemma try_send_ok w channel ch word :
  chan_wf ch → find_channel w channel = Some ch → size ch ≠ size_limit ch →
  coro_bus_try_send w channel word = (0, after_send channel word ch w).
Proof.
  intros Hwf H Hne. unfold coro_bus_try_send. rewrite H.
  destruct (Z.eqb_spec (size ch) (size_limit ch)) as [|_]; [done|].
  pose proof Hwf as (Hs & Hh & Hlen & Hcap). unfold SIZE_MAX in Hcap.
  destruct (Z.ltb_spec 0 (size_limit ch)); [|lia].
  rewrite head_plus_size_no_wrap by done. simpl.
  rewrite size_t_wrap_small by lia. done.
Qed.

Lemma try_recv_no_channel w channel out :
  find_channel w channel = None →
  coro_bus_try_recv w channel out =
  (-1, None, with_proc (coro_bus_errno_set CORO_BUS_ERR_NO_CHANNEL) w).
Proof. intros H. unfold coro_bus_try_recv. by rewrite H. Qed.

Lemma try_recv_empty w channel ch out :
  find_channel w channel = Some ch → size ch = 0 →
  coro_bus_try_recv w channel out =
  (-1, None, with_proc (coro_bus_errno_set CORO_BUS_ERR_WOULD_BLOCK) w).
Proof. intros H E. unfold coro_bus_try_recv. by rewrite H, E. Qed.

Lemma try_recv_ok w channel ch out :
  chan_wf ch → find_channel w channel = Some ch → size ch ≠ 0 →
  coro_bus_try_recv w channel out =
  (0,
   match out with
   | NonNull => Some (read_data ch (head ch))
   | NULL => None
   end,
   after_recv channel ch w).
Proof.
  intros Hwf H Hne. unfold coro_bus_try_recv. rewrite H.
  destruct (Z.eqb_spec (size ch) 0) as [|_]; [done|].
  pose proof Hwf as (Hs & Hh & Hlen & Hcap). unfold SIZE_MAX in Hcap.
  destruct (Z.ltb_spec 0 (size_limit ch)); [|lia].
  simpl. rewrite !size_t_wrap_small by lia. by destruct out.
Qed.

Lemma find_channel_after_send w channel word ch :
  find_channel w channel = Some ch →
  find_channel (after_send channel word ch w) channel =
  Some (chan_push word ch).
Proof. intros. unfold after_send. by erewrite !find_channel_with_proc, find_channel_store. Qed.

Lemma find_channel_after_recv w channel ch :
  find_channel w channel = Some ch →
  find_channel (after_recv channel ch w) channel = Some (chan_pop ch).
Proof. intros. unfold after_recv. by erewrite !find_channel_with_proc, find_channel_store. Qed.

Lemma bus_wf_after_send w channel word ch :
  bus_wf w → chan_wf ch → size ch ≠ size_limit ch →
  bus_wf (after_send channel word ch w).
Proof.
  intros. unfold after_send.
  by apply bus_wf_with_proc, bus_wf_with_proc, bus_wf_store, chan_push_wf.
Qed.

Lemma bus_wf_after_recv w channel ch :
  bus_wf w → chan_wf ch → size ch ≠ 0 → bus_wf (after_recv channel ch w).
Proof.
  intros. unfold after_recv.
  by apply bus_wf_with_proc, bus_wf_with_proc, bus_wf_store, chan_pop_wf.
Qed.

(** The channel is a queue: what was held at the start followed by what was
    sent is what was received followed by what is held at the end. *)
Lemma run_ops_queue ops : ∀ w channel ch sent received w',
  bus_wf w → find_channel w channel = Some ch →
  run_ops ops w channel = (sent, received, w') →
  ∃ ch', find_channel w' channel = Some ch' ∧ bus_wf w' ∧
         contents ch ++ sent = received ++ contents ch'.
Proof.
  induction ops as [|[word|] ops IH]; intros w channel ch sent received w'
    Hwf Hfind Hrun; simpl in Hrun.
  - simplify_eq. exists ch. by rewrite app_nil_r.
  - pose proof (bus_wf_find _ _ _ Hwf Hfind) as Hch.
    destruct (decide (size ch = size_limit ch)) as [Hfull|Hroom].
    + rewrite (try_send_full _ _ ch) in Hrun by done.
      destruct (run_ops ops _ channel) as [[s r] w1] eqn:E.
      simpl in Hrun. simplify_eq.
      eapply IH in E; eauto.
    + rewrite (try_send_ok _ _ ch) in Hrun by done.
      destruct (run_ops ops _ channel) as [[s r] w1] eqn:E.
      simpl in Hrun. simplify_eq.
      eapply IH in E;
        [|by apply bus_wf_after_send|by apply find_channel_after_send].
      destruct E as (ch' & ? & ? & Heq). exists ch'. split_and!; [done..|].
      rewrite contents_push in Heq by done.
      by rewrite <- app_assoc in Heq.
  - pose proof (bus_wf_find _ _ _ Hwf Hfind) as Hch.
    destruct (decide (size ch = 0)) as [Hempty|Hsome].
    + rewrite (try_recv_empty _ _ ch) in Hrun by done.
      destruct (run_ops ops _ channel) as [[s r] w1] eqn:E.
      simpl in Hrun. simplify_eq.
      eapply IH in E; eauto.
    + rewrite (try_recv_ok _ _ ch) in Hrun by done.
      destruct (run_ops ops _ channel) as [[s r] w1] eqn:E.
      simpl in Hrun. simplify_eq.
      eapply IH in E;
        [|by apply bus_wf_after_recv|by apply find_channel_after_recv].
      destruct E as (ch' & ? & ? & Heq). exists ch'. split_and!; [done..|].
      rewrite (contents_pop ch) by done. simpl. by f_equal.
Qed.

Ltac solve_wf :=
  repeat first
    [ progress (unfold bus_wf, slot_wf, chan_wf, channel_count,
                SIZE_MAX, INT_MAX; simpl)
    | apply Forall_nil_2 | apply Forall_cons_2 | split | lia | done ].

(** C5. On an open channel, [coro_bus_try_send] with room left writes its
    word at index [(head + size) mod size_limit] of the array and increments
    [size]; [coro_bus_try_recv] with a word held reads the array at [head],
    advances [head] to [(head + 1) mod size_limit] and decrements [size]. The
    word at logical position [k] is at index [(head + k) mod size_limit], and
    over any run of sends and receives on the channel the words come out in
    the order they went in. *)
Theorem ring_buffer_fifo w channel ch :
  bus_wf w → find_channel w channel = Some ch →
  (size ch ≠ size_limit ch → ∀ word, ∃ w' ch',
     coro_bus_try_send w channel word = (0, w') ∧
     find_channel w' channel = Some ch' ∧
     data ch' =
       <[Z.to_nat ((head ch + size ch) mod size_limit ch) := word]> (data ch) ∧
     read_data ch' ((head ch + size ch) mod size_limit ch) = word ∧
     size ch' = size ch + 1 ∧ head ch' = head ch) ∧
  (size ch ≠ 0 → ∃ w' ch',
     coro_bus_try_recv w channel NonNull =
       (0, Some (read_data ch (head ch)), w') ∧
     find_channel w' channel = Some ch' ∧
     head ch' = (head ch + 1) mod size_limit ch ∧
     size ch' = size ch - 1 ∧ data ch' = data ch) ∧
  (∀ k, 0 ≤ k < size ch →
     contents ch !! Z.to_nat k =
       Some (read_data ch ((head ch + k) mod size_limit ch))) ∧
  (∀ ops sent received w',
     run_ops ops w channel = (sent, received, w') →
     ∃ ch', find_channel w' channel = Some ch' ∧
            contents ch ++ sent = received ++ contents ch').
Proof.
  intros Hwf Hfind. pose proof (bus_wf_find _ _ _ Hwf Hfind) as Hch.
  split_and!.
  - intros Hroom word.
    exists (after_send channel word ch w), (chan_push word ch).
    split_and!; [by apply try_send_ok|by apply find_channel_after_send|done| |done..].
    unfold read_data, chan_push. simpl.
    rewrite list_lookup_insert_eq; [done|].
    destruct Hch as (? & ? & ? & ?). apply ring_index_lt; [done|lia].
  - intros Hsome. exists (after_recv channel ch w), (chan_pop ch).
    split_and!; [|by apply find_channel_after_recv|done..].
    by rewrite (try_recv_ok _ _ ch).
  - intros k Hk. by apply contents_lookup.
  - intros ops sent received w' Hrun.
    destruct (run_ops_queue _ _ _ _ _ _ _ Hwf Hfind Hrun) as (ch' & ? & _ & ?).
    eauto.
Qed.

Lemma ring_buffer_fifo_witness :
  bus_wf sample_world ∧ find_channel sample_world 0 = Some sample_channel ∧
  ∃ ch', find_channel
           (run_ops [op_send 8; op_recv; op_send 9; op_recv] sample_world 0).2
           0 = Some ch' ∧
         contents sample_channel ++ [8; 9] = [7; 8] ++ contents ch'.
Proof.
  assert (bus_wf sample_world) as Hwf by solve_wf.
  split_and!; [done..|].
  destruct (ring_buffer_fifo sample_world 0 sample_channel Hwf eq_refl)
    as (_ & _ & _ & Hrun).
  exact (Hrun [op_send 8; op_recv; op_send 9; op_recv] [8; 9] [7; 8] _ eq_refl).
Defined.

(** ** Calls made by the wake-ups *)

Lemma emit_all_nil p : emit_all [] p = p.
Proof. destruct p. unfold emit_all. simpl. by rewrite app_nil_r. Qed.

Lemma emit_all_app evs evs' p :
  emit_all evs' (emit_all evs p) = emit_all (evs ++ evs') p.
Proof. unfold emit_all. simpl. by rewrite app_assoc. Qed.

Lemma emit_emit_all e p : emit e p = emit_all [e] p.
Proof. done. Qed.

Lemma wakeup_first_events queue p :
  wakeup_queue_wakeup_first queue p = emit_all (wake_first_events queue) p.
Proof. destruct queue; simpl; [by rewrite emit_all_nil|done]. Qed.

Lemma wakeup_all_events queue : ∀ p,
  wakeup_queue_wakeup_all queue p = ([], emit_all (wake_all_events queue) p).
Proof.
  induction queue as [|c queue IH]; intros p; simpl.
  - by rewrite emit_all_nil.
  - rewrite IH. unfold coro_wakeup. rewrite !emit_emit_all, !emit_all_app.
    done.
Qed.

(** ** [coro_bus_try_broadcast] *)

Lemma broadcast_put_push word ch :
  chan_wf ch → size ch ≠ size_limit ch →
  broadcast_put word ch = chan_push word ch.
Proof.
  intros Hwf Hne. pose proof Hwf as (Hs & Hh & Hlen & Hcap).
  unfold SIZE_MAX in Hcap. unfold broadcast_put.
  destruct (Z.ltb_spec 0 (size_limit ch)); [|lia].
  rewrite head_plus_size_no_wrap by done. simpl.
  rewrite size_t_wrap_small by lia. done.
Qed.

Lemma broadcast_scan_room slots : ∀ existing n,
  broadcast_scan slots existing = Some n →
  Forall (λ slot, ∀ ch, slot = Some ch → size ch ≠ size_limit ch) slots ∧
  n = existing + Z.of_nat (length (omap id slots)).
Proof.
  induction slots as [|[ch|] slots IH]; intros existing n Hscan;
    simpl in Hscan.
  - simplify_eq. split; [constructor|simpl; lia].
  - destruct (Z.eqb_spec (size ch) (size_limit ch)); [done|].
    apply IH in Hscan as [Hall ->]. split.
    + constructor; [|done]. by intros ? [= <-].
    + change (omap id (Some ch :: slots)) with (ch :: omap id slots).
      simpl length. lia.
  - apply IH in Hscan as [Hall ->]. split; [|done].
    constructor; [done|done].
Qed.

Lemma broadcast_scan_full slots : ∀ existing,
  broadcast_scan slots existing = None ↔
  ∃ i ch, slots !! i = Some (Some ch) ∧ size ch = size_limit ch.
Proof.
  induction slots as [|[ch|] slots IH]; intros existing; simpl.
  - split; [done|]. by intros (i & ch & ? & _).
  - destruct (Z.eqb_spec (size ch) (size_limit ch)) as [E|E].
    + split; [|done]. intros _. by exists 0%nat, ch.
    + rewrite IH. split.
      * intros (i & ch' & ? & ?). by exists (S i), ch'.
      * intros ([|i] & ch' & Hl & ?); simpl in Hl; [congruence|eauto].
  - rewrite IH. split.
    + intros (i & ch' & ? & ?). by exists (S i), ch'.
    + intros ([|i] & ch' & Hl & ?); simpl in Hl; [done|eauto].
Qed.

Lemma broadcast_deliver_spec word slots : ∀ p,
  Forall slot_wf slots →
  Forall (λ slot, ∀ ch, slot = Some ch → size ch ≠ size_limit ch) slots →
  broadcast_deliver slots word p =
  (fmap (M := option) (chan_push word) <$> slots,
   emit_all (omap id slots ≫= λ ch, wake_first_events (recv_queue ch)) p).
Proof.
  induction slots as [|[ch|] slots IH]; intros p Hwf Hroom;
    cbn [broadcast_deliver].
  - by rewrite emit_all_nil.
  - apply Forall_cons in Hwf as [Hch Hwf].
    apply Forall_cons in Hroom as [Hne Hroom].
    rewrite broadcast_put_push by eauto.
    rewrite IH by done.
    rewrite wakeup_first_events, emit_all_app. done.
  - apply Forall_cons in Hwf as [_ Hwf].
    apply Forall_cons in Hroom as [_ Hroom].
    by rewrite IH.
Qed.

(** C1. When [coro_bus_try_broadcast] succeeds, every open channel has one
    more word, the broadcast word, at its logical tail, index
    [(head + old size) mod size_limit] of its array, and a wake-first was
    made on the receive queue of each open channel; when it fails, no channel
    has changed. *)
Theorem broadcast_atomicity w word rc w' :
  bus_wf w → coro_bus_try_broadcast w word = (rc, w') →
  (rc = 0 ∧
   length (channels (bus w')) = length (channels (bus w)) ∧
   (∀ i ch, channels (bus w) !! i = Some (Some ch) →
      ∃ ch', channels (bus w') !! i = Some (Some ch') ∧
             size ch' = size ch + 1 ∧ head ch' = head ch ∧
             read_data ch' ((head ch + size ch) mod size_limit ch) = word ∧
             contents ch' = contents ch ++ [word]) ∧
   (∀ i, channels (bus w) !! i = Some None →
         channels (bus w') !! i = Some None) ∧
   trace (proc w') =
     trace (proc w) ++
     (open_channels w ≫= λ ch, wake_first_events (recv_queue ch)))
  ∨ (rc = -1 ∧ bus w' = bus w ∧ trace (proc w') = trace (proc w)).
Proof.
  intros Hwf Hrun. unfold coro_bus_try_broadcast in Hrun.
  destruct (broadcast_scan (channels (bus w)) 0) as [n|] eqn:Hscan;
    [|right; by simplify_eq].
  destruct (Z.eqb_spec n 0); [right; by simplify_eq|].
  apply broadcast_scan_room in Hscan as [Hroom _].
  rewrite broadcast_deliver_spec in Hrun by (done || apply Hwf).
  simplify_eq. left. simpl. split_and!; [done|by rewrite length_fmap| | |done].
  - intros i ch Hl. exists (chan_push word ch).
    rewrite list_lookup_fmap, Hl. simpl.
    pose proof (bus_wf_lookup _ _ _ Hwf Hl) as Hch.
    pose proof (Forall_lookup_1 _ _ _ _ Hroom Hl ch eq_refl) as Hne.
    split_and!; [done..| |by apply contents_push].
    unfold read_data. simpl. rewrite list_lookup_insert_eq; [done|].
    destruct Hch as (? & ? & ? & ?). apply ring_index_lt; [done|lia].
  - intros i Hl. by rewrite list_lookup_fmap, Hl.
Qed.

Lemma broadcast_atomicity_witness :
  bus_wf sample_world2 ∧
  ∃ w', coro_bus_try_broadcast sample_world2 9 = (0, w') ∧
        trace (proc w') = [ev_coro_wakeup 5%nat] ∧
        ∃ ch', channels (bus w') !! 0%nat = Some (Some ch') ∧
               contents ch' = [7; 9].
Proof.
  assert (bus_wf sample_world2) as Hwf by solve_wf.
  split; [done|]. eexists. split; [reflexivity|].
  destruct (broadcast_atomicity sample_world2 9 _ _ Hwf eq_refl)
    as [(_ & _ & Hch & _ & Htr)|[? _]]; [|done].
  split; [exact Htr|].
  destruct (Hch 0%nat _ eq_refl) as (ch' & Hl & _ & _ & _ & Hc). eauto.
Defined.

(** C9. While a channel of capacity 0 is open, [coro_bus_try_broadcast]
    returns -1 with [CORO_BUS_ERR_WOULD_BLOCK], and so does
    [coro_bus_try_send] on that channel: with [size == size_limit == 0] the
    channel always counts as full. *)
Theorem zero_capacity_would_block w channel ch word :
  bus_wf w → find_channel w channel = Some ch → size_limit ch = 0 →
  coro_bus_try_broadcast w word =
    (-1, with_proc (coro_bus_errno_set CORO_BUS_ERR_WOULD_BLOCK) w) ∧
  coro_bus_try_send w channel word =
    (-1, with_proc (coro_bus_errno_set CORO_BUS_ERR_WOULD_BLOCK) w) ∧
  global_error (proc (coro_bus_try_broadcast w word).2) =
    CORO_BUS_ERR_WOULD_BLOCK ∧
  global_error (proc (coro_bus_try_send w channel word).2) =
    CORO_BUS_ERR_WOULD_BLOCK.
Proof.
  intros Hwf Hfind Hzero.
  pose proof (bus_wf_find _ _ _ Hwf Hfind) as (Hs & _).
  assert (size ch = size_limit ch) as Hfull by lia.
  assert (coro_bus_try_broadcast w word =
          (-1, with_proc (coro_bus_errno_set CORO_BUS_ERR_WOULD_BLOCK) w))
    as Hb.
  { unfold coro_bus_try_broadcast.
    apply find_channel_Some in Hfind as [_ Hl].
    assert (broadcast_scan (channels (bus w)) 0 = None) as ->; [|done].
    apply broadcast_scan_full. eauto. }
  rewrite Hb, (try_send_full _ _ ch) by done. done.
Qed.

Lemma zero_capacity_would_block_witness :
  bus_wf sample_world3 ∧
  find_channel sample_world3 1 = Some (mk_channel 0 [] [] [] 0 0) ∧
  coro_bus_try_broadcast sample_world3 4 =
    (-1, with_proc (coro_bus_errno_set CORO_BUS_ERR_WOULD_BLOCK)
           sample_world3) ∧
  coro_bus_try_send sample_world3 1 4 =
    (-1, with_proc (coro_bus_errno_set CORO_BUS_ERR_WOULD_BLOCK)
           sample_world3).
Proof.
  assert (bus_wf sample_world3) as Hwf by solve_wf.
  split_and!; [done..| |];
    by destruct (zero_capacity_would_block sample_world3 1 _ 4 Hwf eq_refl
                   eq_refl) as (? & ? & _).
Defined.

(** C10. [coro_bus_try_recv] with a null output pointer on an open channel
    that holds a word succeeds: [head] advances by one modulo [size_limit],
    [size] is decremented, a wake-first is made on the send queue, the error
    code is [CORO_BUS_ERR_NONE], 0 is returned, and nothing is stored. *)
Theorem try_recv_null_discards w channel ch :
  bus_wf w → find_channel w channel = Some ch → size ch ≠ 0 →
  ∃ w' ch',
    coro_bus_try_recv w channel NULL = (0, None, w') ∧
    find_channel w' channel = Some ch' ∧
    head ch' = (head ch + 1) mod size_limit ch ∧
    size ch' = size ch - 1 ∧
    data ch' = data ch ∧
    global_error (proc w') = CORO_BUS_ERR_NONE ∧
    trace (proc w') = trace (proc w) ++ wake_first_events (send_queue ch).
Proof.
  intros Hwf Hfind Hsome. pose proof (bus_wf_find _ _ _ Hwf Hfind) as Hch.
  exists (after_recv channel ch w), (chan_pop ch).
  split_and!; [by rewrite (try_recv_ok _ _ ch)
              |by apply find_channel_after_recv|done..| |].
  - unfold after_recv. simpl. by rewrite wakeup_first_events.
  - unfold after_recv. simpl. by rewrite wakeup_first_events.
Qed.

Lemma try_recv_null_discards_witness :
  bus_wf sample_world4 ∧
  ∃ w', coro_bus_try_recv sample_world4 0 NULL = (0, None, w') ∧
        find_channel w' 0 = Some (mk_channel 2 [3%nat] [] [8; 7] 0 1) ∧
        proc w' = mk_process CORO_BUS_ERR_NONE [ev_coro_wakeup 3%nat] 2.
Proof.
  assert (bus_wf sample_world4) as Hwf by solve_wf.
  split; [done|].
  destruct (try_recv_null_discards sample_world4 0 _ Hwf eq_refl)
    as (w' & ch' & Hrun & Hfind & _); [done|].
  exists w'. split; [exact Hrun|].
  injection Hrun as <-. by split.
Defined.

(** ** [coro_bus_try_send_v] *)

Lemma send_v_loop_push words : ∀ ch,
  chan_wf ch → size ch + Z.of_nat (length words) ≤ size_limit ch →
  let ch' := send_v_loop words ch in
  chan_wf ch' ∧ contents ch' = contents ch ++ words ∧
  size ch' = size ch + Z.of_nat (length words) ∧ head ch' = head ch ∧
  size_limit ch' = size_limit ch ∧
  send_queue ch' = send_queue ch ∧ recv_queue ch' = recv_queue ch.
Proof.
  induction words as [|x words IH]; intros ch Hwf Hroom; simpl in *.
  - rewrite app_nil_r. split_and!; try done; lia.
  - pose proof Hwf as (Hs & Hh & Hlen & Hcap). unfold SIZE_MAX in Hcap.
    rewrite head_plus_size_no_wrap by done.
    rewrite size_t_wrap_small by lia.
    change (set_size _ _) with (chan_push x ch).
    assert (size ch ≠ size_limit ch) as Hne by lia.
    destruct (IH (chan_push x ch)) as (? & Hc & Hsz & ? & ? & ? & ?).
    { by apply chan_push_wf. }
    { simpl. lia. }
    rewrite contents_push in Hc by done. rewrite <- app_assoc in Hc.
    simpl in Hsz. split_and!; try done; lia.
Qed.

Lemma try_send_v_ok w channel ch words :
  chan_wf ch → find_channel w channel = Some ch → size ch ≠ size_limit ch →
  let n := Z.min (Z.of_nat (length words)) (size_limit ch - size ch) in
  let ch' := send_v_loop (take (Z.to_nat n) words) ch in
  coro_bus_try_send_v w channel words =
  (int_cast n,
   with_proc (emit_all (if decide (1 ≤ n)
                        then wake_first_events (recv_queue ch) else []))
     (with_proc (coro_bus_errno_set CORO_BUS_ERR_NONE)
        (store_channel channel ch' w))).
Proof.
  intros Hwf Hfind Hne n ch'. unfold coro_bus_try_send_v. rewrite Hfind.
  destruct (Z.eqb_spec (size ch) (size_limit ch)) as [|_]; [done|].
  pose proof Hwf as (Hs & Hh & Hlen & Hcap). unfold SIZE_MAX in Hcap.
  rewrite size_t_wrap_small by lia.
  assert ((if Z.of_nat (length words) >? size_limit ch - size ch
           then size_limit ch - size ch else Z.of_nat (length words)) = n)
    as ->.
  { subst n. destruct (Z.gtb_spec (Z.of_nat (length words))
                         (size_limit ch - size ch)); lia. }
  fold ch'. f_equal.
  destruct (send_v_loop_push (take (Z.to_nat n) words) ch Hwf)
    as (_ & _ & _ & _ & _ & _ & Hrq).
  { rewrite length_take. lia. }
  fold ch' in Hrq. rewrite Hrq.
  destruct (Z.gtb_spec n 0); destruct (decide (1 ≤ n)); try lia.
  - unfold with_proc. simpl. by rewrite wakeup_first_events.
  - unfold with_proc. simpl. by rewrite emit_all_nil.
Qed.

(** C7, as amended. On an open channel that is not full,
    [coro_bus_try_send_v] copies the first [n = min(count, size_limit - size)]
    of its words to the tail of the ring, in order, sets the error code to
    [CORO_BUS_ERR_NONE], makes a wake-first on the receive queue iff [n ≥ 1],
    and returns [(int)n], which is [n] when [n] fits an [int]; [n ≥ 1] iff
    [count ≥ 1], and [n = 0] when [count = 0]. *)
Theorem try_send_v_copies w channel ch words :
  bus_wf w → find_channel w channel = Some ch → size ch ≠ size_limit ch →
  let n := Z.min (Z.of_nat (length words)) (size_limit ch - size ch) in
  ∃ w' ch',
    coro_bus_try_send_v w channel words = (int_cast n, w') ∧
    find_channel w' channel = Some ch' ∧
    contents ch' = contents ch ++ take (Z.to_nat n) words ∧
    size ch' = size ch + n ∧ head ch' = head ch ∧
    global_error (proc w') = CORO_BUS_ERR_NONE ∧
    trace (proc w') =
      trace (proc w) ++
      (if decide (1 ≤ n) then wake_first_events (recv_queue ch) else []) ∧
    (n ≤ INT_MAX → int_cast n = n) ∧
    (1 ≤ n ↔ words ≠ []) ∧ (words = [] → n = 0).
Proof.
  intros Hwf Hfind Hne n. pose proof (bus_wf_find _ _ _ Hwf Hfind) as Hch.
  pose proof Hch as (Hs & _).
  destruct (send_v_loop_push (take (Z.to_nat n) words) ch Hch)
    as (_ & Hc & Hsz & Hhd & _).
  { rewrite length_take. lia. }
  pose proof (try_send_v_ok w channel ch words Hch Hfind Hne) as Hrun.
  cbv zeta in Hrun. fold n in Hrun.
  eexists _, (send_v_loop (take (Z.to_nat n) words) ch).
  split; [exact Hrun|].
  split_and!.
  - rewrite !find_channel_with_proc. by eapply find_channel_store.
  - done.
  - rewrite Hsz, length_take. lia.
  - done.
  - done.
  - done.
  - intros Hn. apply int_cast_small. unfold INT_MAX in Hn. lia.
  - subst n. destruct words as [|x words]; simpl length.
    + split; [lia|done].
    + split; [done|lia].
  - intros ->. subst n. simpl length. lia.
Qed.

Lemma try_send_v_copies_witness :
  bus_wf sample_world ∧ find_channel sample_world 0 = Some sample_channel ∧
  ∃ w' ch',
    coro_bus_try_send_v sample_world 0 [4; 5; 6] = (1, w') ∧
    find_channel w' 0 = Some ch' ∧ contents ch' = [7; 4].
Proof.
  assert (bus_wf sample_world) as Hwf by solve_wf.
  split_and!; [done..|].
  destruct (try_send_v_copies sample_world 0 _ [4; 5; 6] Hwf eq_refl)
    as (w' & ch' & Hrun & Hfind & Hc & _); [done|].
  by exists w', ch'.
Defined.

(** C7 as stated fails for an empty batch: the call succeeds and returns 0. *)
Lemma try_send_v_empty_batch :
  find_channel sample_world 0 = Some sample_channel ∧
  size sample_channel ≠ size_limit sample_channel ∧
  (coro_bus_try_send_v sample_world 0 []).1 = 0 ∧
  global_error (proc (coro_bus_try_send_v sample_world 0 []).2) =
    CORO_BUS_ERR_NONE ∧
  ¬ 1 ≤ (coro_bus_try_send_v sample_world 0 []).1.
Proof. split_and!; [done..|]. change (¬ 1 ≤ 0). lia. Qed.

(** ** [coro_bus_channel_close] *)

Lemma channel_close_invalid w channel :
  find_channel w channel = None → coro_bus_channel_close w channel = w.
Proof.
  unfold find_channel, coro_bus_channel_close.
  destruct (_ || _); [done|].
  by destruct (channels (bus w) !! Z.to_nat channel) as [[?|]|].
Qed.

Lemma channel_close_open w channel ch :
  find_channel w channel = Some ch →
  coro_bus_channel_close w channel =
  {| bus := mk_bus (<[Z.to_nat channel := None]> (channels (bus w)));
     proc := emit_all
               (wake_all_events (send_queue ch) ++
                wake_all_events (recv_queue ch) ++
                [ev_slot_null (Z.to_nat channel);
                 ev_delete_data []; ev_delete_channel []])
               (proc w) |}.
Proof.
  unfold find_channel, coro_bus_channel_close.
  destruct (_ || _); [done|].
  destruct (channels (bus w) !! Z.to_nat channel) as [[ch'|]|]; [|done..].
  intros [= ->]. rewrite !wakeup_all_events. simpl.
  by rewrite !emit_emit_all, !emit_all_app.
Qed.

(** ** [coro_bus_channel_open] *)

Lemma first_free_slot_Some slots : ∀ i j,
  first_free_slot slots i = Some j →
  (i ≤ j)%nat ∧ slots !! (j - i)%nat = Some None ∧
  ∀ k, (k < j - i)%nat → ∃ ch, slots !! k = Some (Some ch).
Proof.
  induction slots as [|[ch|] slots IH]; intros i j Hf; simpl in Hf.
  - done.
  - apply IH in Hf as (Hle & Hl & Hlow).
    replace (j - i)%nat with (S (j - S i)) by lia.
    split_and!; [lia|done|]. intros [|k] Hk; simpl; [eauto|].
    apply Hlow. lia.
  - simplify_eq. rewrite Nat.sub_diag. split_and!; [done..|]. lia.
Qed.

Lemma first_free_slot_None slots i :
  first_free_slot slots i = None ↔ Forall is_Some slots.
Proof.
  revert i. induction slots as [|[ch|] slots IH]; intros i; simpl.
  - split; [constructor|done].
  - rewrite IH, Forall_cons. split; [by split|by intros [_ ?]].
  - rewrite Forall_cons. split; [done|]. intros [[? [=]] _].
Qed.

Lemma first_free_slot_lowest slots : ∀ i j,
  slots !! j = Some None →
  (∀ k, (k < j)%nat → ∃ ch, slots !! k = Some (Some ch)) →
  first_free_slot slots i = Some (i + j)%nat.
Proof.
  induction slots as [|[ch|] slots IH]; intros i j Hl Hlow.
  - done.
  - destruct j as [|j]; [done|]. simpl in *.
    rewrite (IH (S i) j); [f_equal; lia|done|].
    intros k Hk. apply (Hlow (S k)). lia.
  - destruct j as [|j]; [simpl; f_equal; lia|].
    destruct (Hlow 0%nat) as [? [=]]. lia.
Qed.

Lemma channel_init_Some new_ok limit ch :
  channel_init new_ok limit = Some ch →
  size_limit ch = limit ∧ size ch = 0 ∧ head ch = 0 ∧
  send_queue ch = [] ∧ recv_queue ch = [] ∧ (0 ≤ limit → chan_wf ch).
Proof.
  unfold channel_init.
  destruct (Z.ltb_spec 0 limit);
    [destruct new_ok; simpl;
     [destruct (Z.leb_spec (limit * 4) SIZE_MAX)|]|];
    intros [= <-]; split_and!; try done; intros; unfold chan_wf; simpl;
    rewrite ?length_replicate; unfold SIZE_MAX in *; lia.
Qed.

Lemma new_channel_Some new_ok limit ch :
  new_channel new_ok limit = Some ch →
  new_ok = true ∧ channel_init new_ok limit = Some ch.
Proof. unfold new_channel. by destruct new_ok. Qed.

Lemma new_channel_granted limit :
  array_size_fits limit → is_Some (new_channel true limit).
Proof.
  intros Hfits. unfold new_channel, channel_init. simpl.
  destruct (Z.ltb_spec 0 limit); [|done].
  destruct (Z.leb_spec (limit * 4) SIZE_MAX); [done|].
  unfold array_size_fits in Hfits. lia.
Qed.

Lemma channel_open_Opened realloc_ok new_ok w limit d w' :
  coro_bus_channel_open realloc_ok new_ok w limit = Opened d w' →
  ∃ ch, channel_init new_ok limit = Some ch ∧
        proc w' = coro_bus_errno_set CORO_BUS_ERR_NONE (proc w) ∧
        ((∃ i, d = Z.of_nat i ∧
               first_free_slot (channels (bus w)) 0 = Some i ∧
               channels (bus w') = <[i := Some ch]> (channels (bus w)))
         ∨ (first_free_slot (channels (bus w)) 0 = None ∧
            d = channel_count w ∧ realloc_ok = true ∧
            channel_count w ≠ INT_MAX ∧
            channels (bus w') = channels (bus w) ++ [Some ch])).
Proof.
  unfold coro_bus_channel_open.
  destruct (first_free_slot (channels (bus w)) 0) as [i|] eqn:Hfree.
  - destruct (new_channel new_ok limit) as [ch|] eqn:Hnew; [|done].
    apply new_channel_Some in Hnew as [_ Hinit].
    intros [= <- <-]. exists ch. split_and!; [done..|]. left. by exists i.
  - destruct (Z.eqb_spec (channel_count w) INT_MAX); [done|].
    destruct realloc_ok; [|done].
    destruct (new_channel new_ok limit) as [ch|] eqn:Hnew; [|done].
    apply new_channel_Some in Hnew as [_ Hinit].
    intros [= <- <-]. exists ch. split_and!; [done..|]. by right.
Qed.

Lemma channel_open_failed realloc_ok new_ok w limit w' :
  coro_bus_channel_open realloc_ok new_ok w limit = OpenFailed w' →
  w' = w ∧ realloc_ok = false.
Proof.
  unfold coro_bus_channel_open.
  destruct (first_free_slot _ _); [by destruct (new_channel _ _)|].
  destruct (_ =? _); [done|].
  destruct realloc_ok; [by destruct (new_channel _ _)|]. by intros [= <-].
Qed.

Lemma channel_open_reuse realloc_ok new_ok w limit j ch :
  channels (bus w) !! j = Some None →
  (∀ k, (k < j)%nat → ∃ ch', channels (bus w) !! k = Some (Some ch')) →
  new_channel new_ok limit = Some ch →
  coro_bus_channel_open realloc_ok new_ok w limit =
  Opened (Z.of_nat j)
    {| bus := mk_bus (<[j := Some ch]> (channels (bus w)));
       proc := coro_bus_errno_set CORO_BUS_ERR_NONE (proc w) |}.
Proof.
  intros Hl Hlow Hnew. unfold coro_bus_channel_open.
  by rewrite (first_free_slot_lowest _ 0 j Hl Hlow), Hnew.
Qed.

Lemma channel_open_grow new_ok w limit ch :
  Forall is_Some (channels (bus w)) → channel_count w ≠ INT_MAX →
  new_channel new_ok limit = Some ch →
  coro_bus_channel_open true new_ok w limit =
  Opened (channel_count w)
    {| bus := mk_bus (channels (bus w) ++ [Some ch]);
       proc := coro_bus_errno_set CORO_BUS_ERR_NONE (proc w) |}.
Proof.
  intros Hall Hcnt Hnew. unfold coro_bus_channel_open.
  apply (first_free_slot_None _ 0%nat) in Hall. rewrite Hall.
  destruct (Z.eqb_spec (channel_count w) INT_MAX); [done|].
  by rewrite Hnew.
Qed.

(** On a bus without a free slot, the calls that return a descriptor return
    the next ones in turn. *)
Lemma open_all_descriptors requests : ∀ w ds w',
  Forall is_Some (channels (bus w)) →
  open_all requests w = Some (ds, w') →
  ds = seqZ (channel_count w) (Z.of_nat (length requests)).
Proof.
  induction requests as [|r requests IH]; intros w ds w' Hall Hrun;
    cbn [open_all] in Hrun.
  - simplify_eq. by rewrite seqZ_nil.
  - destruct (coro_bus_channel_open _ _ w _) as [d w1| | |] eqn:Hopen;
      [|done..].
    destruct (open_all requests w1) as [[ds1 w2]|] eqn:Hrest; [|done].
    simplify_eq.
    apply channel_open_Opened in Hopen
      as (ch & _ & _ & [(i & _ & Hfree & _)|(_ & -> & _ & _ & Hslots)]).
    { apply (first_free_slot_None _ 0%nat) in Hall. congruence. }
    rewrite (IH w1 ds1 w' ltac:(rewrite Hslots; apply Forall_app; split;
                                 [done|by repeat constructor]) Hrest).
    rewrite (seqZ_cons (channel_count w)) by (simpl length; lia).
    do 2 f_equal.
    + unfold channel_count. rewrite Hslots, length_app. simpl. lia.
    + simpl length. lia.
Qed.

Lemma open_all_fresh requests : ∀ w,
  Forall is_Some (channels (bus w)) → Forall granted requests →
  channel_count w + Z.of_nat (length requests) ≤ INT_MAX →
  ∃ w', open_all requests w =
        Some (seqZ (channel_count w) (Z.of_nat (length requests)), w').
Proof.
  induction requests as [|r requests IH]; intros w Hall Hgranted Hcnt.
  - exists w. by rewrite seqZ_nil.
  - apply Forall_cons in Hgranted as [(Hre & Hnew & Hfits) Hgranted].
    destruct (new_channel_granted _ Hfits) as [ch Hch].
    simpl length in *. cbn [open_all]. rewrite Hre, Hnew.
    rewrite (channel_open_grow true w (req_limit r) ch) by (done || lia).
    set (w1 := mk_world _ _).
    destruct (IH w1) as [w' Hrun].
    { subst w1. simpl. apply Forall_app. split; [done|].
      by repeat constructor. }
    { done. }
    { subst w1. unfold channel_count in *. simpl. rewrite length_app. simpl.
      lia. }
    rewrite Hrun. exists w'. do 2 f_equal.
    rewrite (seqZ_cons (channel_count w)) by lia. do 2 f_equal.
    + subst w1. unfold channel_count. simpl. rewrite length_app. simpl. lia.
    + lia.
Qed.

(** After an open that returned [d] and a close of [d], slot [d] is the
    lowest empty slot. *)
Lemma open_close_free_slot realloc_ok new_ok w limit d w1 :
  coro_bus_channel_open realloc_ok new_ok w limit = Opened d w1 →
  ∃ j, d = Z.of_nat j ∧
       channels (bus (coro_bus_channel_close w1 d)) !! j = Some None ∧
       ∀ k, (k < j)%nat →
            ∃ ch, channels (bus (coro_bus_channel_close w1 d)) !! k =
                  Some (Some ch).
Proof.
  intros Hopen.
  apply channel_open_Opened in Hopen
    as (ch & _ & _ & [(i & -> & Hfree & Hslots)|(Hfree & -> & _ & _ & Hslots)]).
  - apply first_free_slot_Some in Hfree as (_ & Hl & Hlow).
    rewrite Nat.sub_0_r in Hl, Hlow.
    pose proof (lookup_lt_Some _ _ _ Hl) as Hlt.
    assert (find_channel w1 (Z.of_nat i) = Some ch) as Hfind.
    { apply find_channel_Some. split; [lia|].
      rewrite Hslots, Nat2Z.id. by apply list_lookup_insert_eq. }
    rewrite (channel_close_open _ _ ch Hfind), Nat2Z.id, Hslots.
    exists i. split_and!; [done| |intros k Hk]; simpl.
    + apply list_lookup_insert_eq. by rewrite length_insert.
    + rewrite !list_lookup_insert_ne by lia. by apply Hlow.
  - apply first_free_slot_None in Hfree.
    assert (find_channel w1 (channel_count w) = Some ch) as Hfind.
    { apply find_channel_Some. unfold channel_count. split; [lia|].
      rewrite Hslots, Nat2Z.id. by apply list_lookup_middle. }
    rewrite (channel_close_open _ _ ch Hfind). unfold channel_count.
    rewrite Nat2Z.id, Hslots.
    exists (length (channels (bus w))).
    split_and!; [done| |intros k Hk]; simpl.
    + apply list_lookup_insert_eq. rewrite length_app. simpl. lia.
    + rewrite list_lookup_insert_ne, lookup_app_l by lia.
      destruct (lookup_lt_is_Some_2 _ _ Hk) as [slot Hslot].
      rewrite Hslot.
      destruct (Forall_lookup_1 _ _ _ _ Hfree Hslot) as [ch0 ->]. eauto.
Qed.

(** C6. [coro_bus_channel_open] returns the lowest descriptor whose slot is
    empty and grows the slot array, by one, only when no slot is empty. On a
    fresh bus the calls that return a descriptor return 0, 1, 2, ... in
    turn, and N calls all return one, 0 .. N-1, when the allocator grants
    each request. After an open that returned [d] and a close of [d], an
    open that returns a descriptor returns [d], and it does return one when
    [operator new] grants the channel. *)
Theorem channel_open_lowest_slot :
  (∀ realloc_ok new_ok w limit d w',
     coro_bus_channel_open realloc_ok new_ok w limit = Opened d w' →
     0 ≤ d ∧
     (∀ k, (k < Z.to_nat d)%nat →
           ∃ ch, channels (bus w) !! k = Some (Some ch)) ∧
     (∃ ch, channel_init new_ok limit = Some ch ∧
            channels (bus w') !! Z.to_nat d = Some (Some ch)) ∧
     (channels (bus w) !! Z.to_nat d = Some None ∧
      length (channels (bus w')) = length (channels (bus w))
      ∨
      Forall is_Some (channels (bus w)) ∧ d = channel_count w ∧
      length (channels (bus w')) = S (length (channels (bus w))))) ∧
  (∀ p requests ds w',
     open_all requests (mk_world (mk_bus []) p) = Some (ds, w') →
     ds = seqZ 0 (Z.of_nat (length requests))) ∧
  (∀ p requests,
     Forall granted requests → Z.of_nat (length requests) ≤ INT_MAX →
     ∃ w', open_all requests (mk_world (mk_bus []) p) =
           Some (seqZ 0 (Z.of_nat (length requests)), w')) ∧
  (∀ realloc_ok new_ok realloc_ok' new_ok' w limit limit' d d' w1 w2,
     coro_bus_channel_open realloc_ok new_ok w limit = Opened d w1 →
     coro_bus_channel_open realloc_ok' new_ok'
       (coro_bus_channel_close w1 d) limit' = Opened d' w2 →
     d' = d) ∧
  (∀ realloc_ok new_ok realloc_ok' w limit limit' d w1,
     coro_bus_channel_open realloc_ok new_ok w limit = Opened d w1 →
     array_size_fits limit' →
     ∃ w2, coro_bus_channel_open realloc_ok' true
             (coro_bus_channel_close w1 d) limit' = Opened d w2).
Proof.
  split_and!.
  - intros realloc_ok new_ok w limit d w' Hopen.
    apply channel_open_Opened in Hopen
      as (ch & Hinit & _ &
          [(i & -> & Hfree & Hslots)|(Hfree & -> & _ & _ & Hslots)]).
    + apply first_free_slot_Some in Hfree as (_ & Hl & Hlow).
      rewrite Nat.sub_0_r in Hl, Hlow. rewrite Nat2Z.id, Hslots.
      pose proof (lookup_lt_Some _ _ _ Hl) as Hlt.
      split_and!; [lia|done| |].
      * exists ch. split; [done|]. by apply list_lookup_insert_eq.
      * left. split; [done|]. by rewrite length_insert.
    + apply first_free_slot_None in Hfree. unfold channel_count.
      rewrite Nat2Z.id, Hslots. split_and!; [lia| | |].
      * intros k Hk. destruct (lookup_lt_is_Some_2 _ _ Hk) as [slot Hslot].
        rewrite Hslot.
        destruct (Forall_lookup_1 _ _ _ _ Hfree Hslot) as [ch0 ->]. eauto.
      * exists ch. split; [done|]. by apply list_lookup_middle.
      * right. split_and!; [done..|]. rewrite length_app. simpl. lia.
  - intros p requests ds w' Hrun.
    by apply (open_all_descriptors requests (mk_world (mk_bus []) p) ds w');
      [constructor|].
  - intros p requests Hgranted Hlen.
    apply (open_all_fresh requests (mk_world (mk_bus []) p));
      [constructor|done|done].
  - intros realloc_ok new_ok realloc_ok' new_ok' w limit limit' d d' w1 w2
      Hopen Hagain.
    destruct (open_close_free_slot _ _ _ _ _ _ Hopen) as (j & -> & Hl & Hlow).
    apply channel_open_Opened in Hagain
      as (ch & _ & _ & [(i & -> & Hfree & _)|(Hfree & _)]).
    + rewrite (first_free_slot_lowest _ 0 j Hl Hlow) in Hfree.
      by simplify_eq/=.
    + rewrite (first_free_slot_lowest _ 0 j Hl Hlow) in Hfree. done.
  - intros realloc_ok new_ok realloc_ok' w limit limit' d w1 Hopen Hfits.
    destruct (open_close_free_slot _ _ _ _ _ _ Hopen) as (j & -> & Hl & Hlow).
    destruct (new_channel_granted _ Hfits) as [ch Hch].
    eexists. by apply channel_open_reuse.
Qed.

Lemma channel_open_lowest_slot_witness :
  ∃ w w1,
    open_all [mk_request true true 2; mk_request true true 0;
              mk_request true true 1] (mk_world (mk_bus []) quiet) =
    Some ([0; 1; 2], w) ∧
    coro_bus_channel_open false true (coro_bus_channel_close w 1) 5 =
    Opened 1 w1 ∧
    channels (bus (coro_bus_channel_close w 1)) !! 1%nat = Some None.
Proof.
  destruct channel_open_lowest_slot as (Hlow & _ & Hmany & _).
  destruct (Hmany quiet [mk_request true true 2; mk_request true true 0;
                         mk_request true true 1]) as [w Hw].
  { repeat constructor; unfold array_size_fits, SIZE_MAX; simpl; lia. }
  { unfold INT_MAX. simpl. lia. }
  exists w. eexists. split; [exact Hw|].
  injection Hw as <-. split; [reflexivity|].
  match goal with
  | |- channels (bus ?w0) !! _ = _ =>
      destruct (Hlow false true w0 5 1 _ eq_refl)
        as (_ & _ & _ & [[Hfree _]|[_ [[=] _]]])
  end.
  exact Hfree.
Defined.

(** C2, as amended. [coro_bus_channel_close] on a valid, open descriptor
    first wakes and detaches every waiter of the send queue, then every
    waiter of the receive queue, then clears the slot, then releases the
    buffer and then the channel object: both wait queues are empty when the
    storage is released, and afterwards the descriptor finds no channel. *)
Theorem channel_close_order w channel ch :
  find_channel w channel = Some ch →
  let w' := coro_bus_channel_close w channel in
  trace (proc w') =
    trace (proc w) ++
    wake_all_events (send_queue ch) ++ wake_all_events (recv_queue ch) ++
    [ev_slot_null (Z.to_nat channel); ev_delete_data []; ev_delete_channel []]
  ∧ channels (bus w') = <[Z.to_nat channel := None]> (channels (bus w))
  ∧ find_channel w' channel = None
  ∧ ∀ c, c ∈ send_queue ch ++ recv_queue ch →
         precedes (ev_rlist_del c) (ev_coro_wakeup c) (trace (proc w')) ∧
         precedes (ev_coro_wakeup c) (ev_slot_null (Z.to_nat channel))
           (trace (proc w')) ∧
         precedes (ev_rlist_del c) (ev_delete_data []) (trace (proc w')).
Proof.
  intros Hfind w'. subst w'. rewrite (channel_close_open _ _ ch Hfind). simpl.
  split_and!; [done..| |].
  - apply find_channel_None. right. right.
    apply find_channel_Some in Hfind as [_ Hl].
    apply list_lookup_insert_eq. by eapply lookup_lt_Some.
  - intros c Hc.
    assert (∃ l1 l2,
      wake_all_events (send_queue ch) ++ wake_all_events (recv_queue ch) =
      l1 ++ ev_rlist_del c :: ev_coro_wakeup c :: l2) as (l1 & l2 & Hsplit).
    { unfold wake_all_events. rewrite <- bind_app.
      apply list_elem_of_split in Hc as (q1 & q2 & ->).
      rewrite bind_app. simpl. eauto. }
    rewrite (app_assoc (wake_all_events _)), Hsplit. split_and!.
    + exists (trace (proc w) ++ l1), [], (l2 ++ [ev_slot_null (Z.to_nat channel);
                                             ev_delete_data [];
                                             ev_delete_channel []]).
      by rewrite <- !app_assoc.
    + exists (trace (proc w) ++ l1 ++ [ev_rlist_del c]), l2,
        [ev_delete_data []; ev_delete_channel []].
      by rewrite <- !app_assoc.
    + exists (trace (proc w) ++ l1),
        (ev_coro_wakeup c :: l2 ++ [ev_slot_null (Z.to_nat channel)]),
        [ev_delete_channel []].
      rewrite <- !app_assoc. simpl. by rewrite <- !app_assoc.
Qed.

Lemma channel_close_order_witness :
  trace (proc (coro_bus_channel_close sample_world4 0)) =
    [ev_rlist_del 3%nat; ev_coro_wakeup 3%nat;
     ev_slot_null 0%nat; ev_delete_data []; ev_delete_channel []] ∧
  find_channel (coro_bus_channel_close sample_world4 0) 0 = None.
Proof.
  by destruct (channel_close_order sample_world4 0 _ eq_refl) as (? & _ & ? & _).
Defined.

(** C2 as stated has the slot detached first; the source wakes the waiters
    while the slot still holds the channel. *)
Lemma channel_close_wakes_before_detach :
  find_channel sample_world4 0 = Some (mk_channel 2 [3%nat] [] [8; 7] 1 2) ∧
  precedes (ev_coro_wakeup 3%nat) (ev_slot_null 0%nat)
    (trace (proc (coro_bus_channel_close sample_world4 0))) ∧
  ¬ precedes (ev_slot_null 0%nat) (ev_coro_wakeup 3%nat)
      (trace (proc (coro_bus_channel_close sample_world4 0))).
Proof.
  split_and!; [done| |].
  - by exists [ev_rlist_del 3%nat], [],
      [ev_delete_data []; ev_delete_channel []].
  - intros (l1 & l2 & l3 & Heq).
    change (trace (proc (coro_bus_channel_close sample_world4 0)))
      with [ev_rlist_del 3%nat; ev_coro_wakeup 3%nat; ev_slot_null 0%nat;
            ev_delete_data []; ev_delete_channel []] in Heq.
    destruct l1 as [|? l1]; simpl in Heq; [discriminate|].
    injection Heq as _ Heq.
    destruct l1 as [|? l1]; simpl in Heq; [discriminate|].
    injection Heq as _ Heq.
    destruct l1 as [|? l1]; simpl in Heq.
    + injection Heq as Heq.
      destruct l2 as [|? l2]; simpl in Heq; [discriminate|].
      injection Heq as _ Heq.
      destruct l2 as [|? l2]; simpl in Heq; [discriminate|].
      injection Heq as _ Heq.
      destruct l2; discriminate.
    + injection Heq as _ Heq.
      destruct l1 as [|? l1]; simpl in Heq;
        [destruct l2; simpl in Heq; [discriminate|];
         injection Heq as _ Heq; destruct l2; discriminate|].
      injection Heq as _ Heq.
      destruct l1 as [|? l1]; simpl in Heq;
        [destruct l2; discriminate|].
      injection Heq as _ Heq. destruct l1; discriminate.
Qed.

(** ** The blocking loops *)

Lemma coro_bus_send_retry self channel word sched : ∀ w,
  coro_bus_send sched self w channel word =
  retry_loop (λ w, coro_bus_try_send w channel word) (λ rc, rc =? 0)
    (λ ch, size ch <? size_limit ch) send_queue SendQueue self channel sched w.
Proof.
  induction sched as [|others sched IH]; intros w; simpl;
    destruct (coro_bus_try_send w channel word) as [rc w1];
    destruct (Z.eqb_spec rc 0) as [->|]; try done;
    destruct (decide _); try done;
    destruct (find_channel w1 channel); try done.
Qed.

Lemma coro_bus_send_v_retry self channel words sched : ∀ w,
  coro_bus_send_v sched self w channel words =
  retry_loop (λ w, coro_bus_try_send_v w channel words) (λ rc, rc >=? 0)
    (λ ch, size ch <? size_limit ch) send_queue SendQueue self channel sched w.
Proof.
  induction sched as [|others sched IH]; intros w; simpl;
    destruct (coro_bus_try_send_v w channel words) as [rc w1];
    destruct (rc >=? 0); try done;
    destruct (decide _); try done;
    destruct (find_channel w1 channel); try done.
Qed.

Lemma coro_bus_recv_retry self channel out sched : ∀ w,
  drop_stored <$> coro_bus_recv sched self w channel out =
  retry_loop (try_recv_rc channel out) (λ rc, rc =? 0)
    (λ ch, size ch >? 0) recv_queue RecvQueue self channel sched w.
Proof.
  unfold try_recv_rc.
  induction sched as [|others sched IH]; intros w; simpl;
    destruct (coro_bus_try_recv w channel out) as [[rc stored] w1];
    destruct (Z.eqb_spec rc 0) as [->|]; try done;
    destruct (decide _); try done;
    destruct (find_channel w1 channel); try done.
Qed.

Lemma coro_bus_recv_v_retry self channel capacity sched : ∀ w,
  drop_stored <$> coro_bus_recv_v sched self w channel capacity =
  retry_loop (try_recv_v_rc channel capacity) (λ rc, rc >=? 0)
    (λ ch, size ch >? 0) recv_queue RecvQueue self channel sched w.
Proof.
  unfold try_recv_v_rc.
  induction sched as [|others sched IH]; intros w; simpl;
    destruct (coro_bus_try_recv_v w channel capacity) as [[rc stored] w1];
    destruct (rc >=? 0); try done;
    destruct (decide _); try done;
    destruct (find_channel w1 channel); try done.
Qed.

Section retry_loop.
Variable attempt : world → Z * world.
Variable ok : Z → bool.
Variable cond : coro_bus_channel → bool.
Variable queue : coro_bus_channel → wakeup_queue.
Variable k : queue_kind.
Variable self : coro.
Variable channel : Z.

(** What holds of the state at every retry, of the transitions of the other
    coroutines, and of the result. *)
Variable I : world → Prop.
Variable G : (world → world) → Prop.
Variable P : Z → world → Prop.

(** One turn of the loop from a state in [I] either returns a result in [P]
    or suspends and is resumed in [I]. *)
Hypothesis turn : ∀ w, I w →
  let '(rc, w1) := attempt w in
  if ok rc then P rc (wake_if cond queue w1 channel)
  else if decide (coro_bus_errno (proc w1) ≠ CORO_BUS_ERR_WOULD_BLOCK)
  then P (-1) w1
  else match find_channel w1 channel with
       | None =>
           P (-1) (with_proc (coro_bus_errno_set CORO_BUS_ERR_NO_CHANNEL) w1)
       | Some _ =>
           ∀ others, G others →
                     I (wakeup_queue_suspend_this self channel k others w1)
       end.

Lemma retry_loop_spec sched : ∀ w rc w',
  I w → Forall G sched →
  retry_loop attempt ok cond queue k self channel sched w = Some (rc, w') →
  P rc w'.
Proof.
  induction sched as [|others sched IH]; intros w rc w' HI HG Hrun;
    simpl in Hrun; pose proof (turn w HI) as Hturn;
    destruct (attempt w) as [rc1 w1];
    destruct (ok rc1); try (by simplify_eq);
    destruct (decide _); try (by simplify_eq);
    destruct (find_channel w1 channel); try (by simplify_eq).
  apply Forall_cons in HG as [Hothers HG].
  eapply IH; [|done|done]. by apply Hturn.
Qed.
End retry_loop.

(** ** Preservation by the queue operations *)

Lemma chan_wf_queues ch sq rq :
  chan_wf ch → chan_wf (set_recv_queue rq (set_send_queue sq ch)).
Proof. done. Qed.

Lemma wake_if_proc cond queue w channel :
  ∃ evs, wake_if cond queue w channel = with_proc (emit_all evs) w.
Proof.
  unfold wake_if. destruct (channel_at w channel) as [ch|].
  - destruct (cond ch).
    + exists (wake_first_events (queue ch)). unfold with_proc.
      by rewrite wakeup_first_events.
    + exists []. destruct w as [b p]. unfold with_proc. simpl.
      by rewrite emit_all_nil.
  - exists []. destruct w as [b p]. unfold with_proc. simpl.
    by rewrite emit_all_nil.
Qed.

Lemma link_entry_wf self channel k w :
  bus_wf w → bus_wf (link_entry self channel k w).
Proof.
  intros Hwf. unfold link_entry.
  destruct (find_channel w channel) as [ch|] eqn:Hfind; [|done].
  apply bus_wf_store; [done|].
  pose proof (bus_wf_find _ _ _ Hwf Hfind). by destruct k.
Qed.

Lemma link_entry_proc self channel k w :
  proc (link_entry self channel k w) = proc w.
Proof. unfold link_entry. by destruct (find_channel w channel). Qed.

Lemma unlink_entry_wf self w : bus_wf w → bus_wf (unlink_entry self w).
Proof.
  intros [Hall Hcnt]. split.
  - simpl. apply Forall_fmap. eapply Forall_impl; [done|].
    by intros [ch|].
  - unfold channel_count in *. simpl. by rewrite length_fmap.
Qed.

Lemma suspend_this_wf self channel k others w :
  (∀ x, bus_wf x → bus_wf (others x)) →
  bus_wf w → bus_wf (wakeup_queue_suspend_this self channel k others w).
Proof.
  intros Hothers Hwf. unfold wakeup_queue_suspend_this.
  by apply unlink_entry_wf, Hothers, bus_wf_with_proc, link_entry_wf.
Qed.

Lemma suspend_this_writes self channel k others w :
  (∀ x, (errno_writes (proc x) ≤ errno_writes (proc (others x)))%nat) →
  (errno_writes (proc w) ≤
   errno_writes (proc (wakeup_queue_suspend_this self channel k others w)))%nat.
Proof.
  intros Hothers. unfold wakeup_queue_suspend_this. simpl.
  etrans; [|apply Hothers]. simpl. by rewrite link_entry_proc.
Qed.

Lemma find_channel_bus w w' channel :
  bus w' = bus w → find_channel w' channel = find_channel w channel.
Proof. unfold find_channel, channel_count. by intros ->. Qed.

(** ** One call of each non-blocking operation *)

Lemma try_send_facts channel word w :
  attempt_facts channel (λ rc, rc =? 0) True w
    (coro_bus_try_send w channel word).1 (coro_bus_try_send w channel word).2.
Proof.
  destruct (find_channel w channel) as [ch|] eqn:Hfind.
  - destruct (decide (size ch = size_limit ch)) as [Hfull|Hroom].
    + rewrite (try_send_full _ _ ch) by done.
      split_and!; [done..|]. right. left. by rewrite Hfind.
    + split_and!.
      * unfold coro_bus_try_send. rewrite Hfind.
        destruct (Z.eqb_spec (size ch) (size_limit ch)); [done|].
        simpl. by rewrite wakeup_first_events.
      * intros Hwf. pose proof (bus_wf_find _ _ _ Hwf Hfind).
        rewrite (try_send_ok _ _ ch) by done. by apply bus_wf_after_send.
      * right. right. rewrite Hfind. split_and!; [done| |].
        -- intros _. unfold coro_bus_try_send. rewrite Hfind.
           by destruct (Z.eqb_spec (size ch) (size_limit ch)).
        -- unfold coro_bus_try_send. rewrite Hfind.
           destruct (Z.eqb_spec (size ch) (size_limit ch)); [done|].
           simpl. by rewrite wakeup_first_events.
  - rewrite try_send_no_channel by done. split_and!; [done..|]. by left.
Qed.

Lemma try_recv_facts channel out w :
  attempt_facts channel (λ rc, rc =? 0) True w
    (try_recv_rc channel out w).1 (try_recv_rc channel out w).2.
Proof.
  unfold try_recv_rc.
  destruct (find_channel w channel) as [ch|] eqn:Hfind.
  - destruct (decide (size ch = 0)) as [Hempty|Hsome].
    + rewrite (try_recv_empty _ _ ch) by done.
      split_and!; [done..|]. right. left. by rewrite Hfind.
    + split_and!.
      * unfold coro_bus_try_recv. rewrite Hfind.
        destruct (Z.eqb_spec (size ch) 0); [done|].
        simpl. by rewrite wakeup_first_events.
      * intros Hwf. pose proof (bus_wf_find _ _ _ Hwf Hfind).
        rewrite (try_recv_ok _ _ ch) by done. by apply bus_wf_after_recv.
      * right. right. rewrite Hfind. split_and!; [done| |].
        -- intros _. unfold coro_bus_try_recv. rewrite Hfind.
           by destruct (Z.eqb_spec (size ch) 0).
        -- unfold coro_bus_try_recv. rewrite Hfind.
           destruct (Z.eqb_spec (size ch) 0); [done|].
           simpl. by rewrite wakeup_first_events.
  - rewrite try_recv_no_channel by done. split_and!; [done..|]. by left.
Qed.

Lemma try_send_v_facts channel words w :
  attempt_facts channel (λ rc, rc >=? 0)
    (Z.of_nat (length words) ≤ INT_MAX) w
    (coro_bus_try_send_v w channel words).1
    (coro_bus_try_send_v w channel words).2.
Proof.
  destruct (find_channel w channel) as [ch|] eqn:Hfind.
  - destruct (decide (size ch = size_limit ch)) as [Hfull|Hroom].
    + unfold coro_bus_try_send_v. rewrite Hfind, Hfull, Z.eqb_refl.
      split_and!; [done..|]. right. left. by rewrite Hfind.
    + split_and!.
      * unfold coro_bus_try_send_v. rewrite Hfind.
        destruct (Z.eqb_spec (size ch) (size_limit ch)); [done|].
        simpl.
        match goal with
        | |- context [if ?c >? 0 then _ else _] => destruct (c >? 0)
        end; simpl; by rewrite ?wakeup_first_events.
      * intros Hwf. pose proof (bus_wf_find _ _ _ Hwf Hfind) as Hch.
        pose proof (try_send_v_ok w channel ch words Hch Hfind Hroom) as ->.
        apply bus_wf_with_proc, bus_wf_with_proc, bus_wf_store; [done|].
        apply send_v_loop_push; [done|]. rewrite length_take.
        destruct Hch as (? & _). lia.
      * right. right. rewrite Hfind. split_and!; [done| |].
        -- intros Hfits. unfold coro_bus_try_send_v. rewrite Hfind.
           destruct (Z.eqb_spec (size ch) (size_limit ch)); [done|]. simpl.
           pose proof (Z.mod_pos_bound (size_limit ch - size ch) (2 ^ 64)).
           unfold size_t_wrap, INT_MAX in *.
           destruct (Z.gtb_spec (Z.of_nat (length words))
                       ((size_limit ch - size ch) `mod` 2 ^ 64));
             rewrite int_cast_small by lia; apply Z.geb_le; lia.
        -- unfold coro_bus_try_send_v. rewrite Hfind.
           destruct (Z.eqb_spec (size ch) (size_limit ch)); [done|].
           simpl.
           match goal with
           | |- context [if ?c >? 0 then _ else _] => destruct (c >? 0)
           end; simpl; by rewrite ?wakeup_first_events.
  - unfold coro_bus_try_send_v. rewrite Hfind.
    split_and!; [done..|]. by left.
Qed.

Lemma recv_v_loop_wf n : ∀ ch,
  chan_wf ch → 0 < size_limit ch →
  let ch' := (recv_v_loop n ch).2 in
  0 ≤ head ch' < size_limit ch ∧ size_limit ch' = size_limit ch ∧
  data ch' = data ch ∧ size ch' = size ch ∧
  send_queue ch' = send_queue ch ∧ recv_queue ch' = recv_queue ch.
Proof.
  induction n as [|n IH]; intros ch Hwf HL; simpl.
  - destruct Hwf as (_ & ? & _). split_and!; [lia..|done|done|done|done|done].
  - set (ch1 := set_head _ ch).
    assert (chan_wf ch1) as Hwf1.
    { destruct Hwf as (? & ? & ? & ?). unfold chan_wf, ch1. simpl.
      pose proof (Z.mod_pos_bound (size_t_wrap (head ch + 1)) _ HL). lia. }
    specialize (IH ch1 Hwf1 HL).
    destruct (recv_v_loop n ch1) as [out ch2]. simpl in *. done.
Qed.

Lemma try_recv_v_facts channel capacity w :
  0 ≤ capacity →
  attempt_facts channel (λ rc, rc >=? 0) (bus_wf w ∧ capacity ≤ INT_MAX) w
    (try_recv_v_rc channel capacity w).1 (try_recv_v_rc channel capacity w).2.
Proof.
  intros Hcap. unfold try_recv_v_rc.
  destruct (find_channel w channel) as [ch|] eqn:Hfind.
  - destruct (decide (size ch = 0)) as [Hempty|Hsome].
    + unfold coro_bus_try_recv_v. rewrite Hfind, Hempty. simpl.
      split_and!; [done..|]. right. left. by rewrite Hfind.
    + unfold coro_bus_try_recv_v. rewrite Hfind.
      destruct (Z.eqb_spec (size ch) 0); [done|].
      set (to_recv := if capacity >? size ch then size ch else capacity).
      pose proof (recv_v_loop_wf (Z.to_nat to_recv) ch) as Hloop.
      destruct (recv_v_loop (Z.to_nat to_recv) ch) as [out ch1]. simpl in *.
      split_and!; [simpl; by rewrite wakeup_first_events| |].
      * intros Hwf. pose proof (bus_wf_find _ _ _ Hwf Hfind) as Hch.
        apply bus_wf_with_proc, bus_wf_with_proc, bus_wf_store; [done|].
        pose proof Hch as (? & ? & ? & Hmax). unfold SIZE_MAX in Hmax.
        destruct Hloop as (? & HL & Hd & Hs & _); [done|lia|].
        assert (0 ≤ to_recv ≤ size ch).
        { subst to_recv. destruct (Z.gtb_spec capacity (size ch)); lia. }
        unfold chan_wf. simpl. rewrite HL, Hd, Hs.
        rewrite size_t_wrap_small by lia. unfold SIZE_MAX. lia.
      * right. right. rewrite Hfind.
        split_and!; [done| |simpl; by rewrite wakeup_first_events].
        intros [Hwf Hfits]. pose proof (bus_wf_find _ _ _ Hwf Hfind) as Hch.
        destruct Hch as (? & _). unfold INT_MAX in Hfits.
        assert (0 ≤ to_recv ≤ capacity).
        { subst to_recv. destruct (Z.gtb_spec capacity (size ch)); lia. }
        rewrite int_cast_small by lia. apply Z.geb_le. lia.
  - unfold coro_bus_try_recv_v. rewrite Hfind.
    split_and!; [done..|]. by left.
Qed.

Lemma attempt_facts_weaken channel ok (fits fits' : Prop) w rc w1 :
  (fits' → fits) →
  attempt_facts channel ok fits w rc w1 →
  attempt_facts channel ok fits' w rc w1.
Proof.
  intros Himp (? & ? & [?|[?|(? & ? & ?)]]); split_and!; auto.
  right. right. split_and!; auto.
Qed.

Lemma wake_if_bus cond queue w channel :
  bus (wake_if cond queue w channel) = bus w.
Proof. by destruct (wake_if_proc cond queue w channel) as [evs ->]. Qed.

Lemma wake_if_errno cond queue w channel :
  global_error (proc (wake_if cond queue w channel)) = global_error (proc w).
Proof. by destruct (wake_if_proc cond queue w channel) as [evs ->]. Qed.

Lemma wake_if_writes cond queue w channel :
  errno_writes (proc (wake_if cond queue w channel)) = errno_writes (proc w).
Proof. by destruct (wake_if_proc cond queue w channel) as [evs ->]. Qed.

Lemma wake_if_wf cond queue w channel :
  bus_wf w → bus_wf (wake_if cond queue w channel).
Proof. by destruct (wake_if_proc cond queue w channel) as [evs ->]. Qed.

Section blocking.
Variable attempt : world → Z * world.
Variable ok : Z → bool.
Variable cond : coro_bus_channel → bool.
Variable queue : coro_bus_channel → wakeup_queue.
Variable k : queue_kind.
Variable self : coro.
Variable channel : Z.
Variable F : Prop.

Hypothesis Hfacts : ∀ w,
  attempt_facts channel ok (bus_wf w ∧ F) w (attempt w).1 (attempt w).2.
Hypothesis Hok : ok (-1) = false.
Hypothesis Hnonneg : ∀ rc, ok rc = true → 0 ≤ rc.

Let loop := retry_loop attempt ok cond queue k self channel.

Lemma retry_loop_wf sched w rc w' :
  bus_wf w → Forall keeps_wf sched → loop sched w = Some (rc, w') →
  bus_wf w'.
Proof.
  apply (retry_loop_spec attempt ok cond queue k self channel
           bus_wf keeps_wf (λ _ w', bus_wf w')).
  intros x Hx. destruct (Hfacts x) as (_ & Hwf & _).
  destruct (attempt x) as [rc1 x1]. simpl in Hwf. specialize (Hwf Hx).
  destruct (ok rc1); [by apply wake_if_wf|].
  destruct (decide _); [done|].
  destruct (find_channel x1 channel); [|done].
  intros others Hothers. by apply suspend_this_wf.
Qed.

Lemma retry_loop_errno sched w rc w' :
  loop sched w = Some (rc, w') →
  global_error (proc w') = CORO_BUS_ERR_NONE ∨
  rc = -1 ∧ global_error (proc w') = CORO_BUS_ERR_NO_CHANNEL ∧
  find_channel w' channel = None.
Proof.
  intros Hrun.
  eapply (retry_loop_spec attempt ok cond queue k self channel
            (λ _, True) (λ _, True)
            (λ rc w', global_error (proc w') = CORO_BUS_ERR_NONE ∨
                      rc = -1 ∧
                      global_error (proc w') = CORO_BUS_ERR_NO_CHANNEL ∧
                      find_channel w' channel = None));
    [|done|by apply Forall_true|exact Hrun].
  intros x _. destruct (Hfacts x) as (_ & _ & Hcases).
  destruct (attempt x) as [rc1 x1]. simpl in Hcases.
  destruct Hcases as [(Hnone & -> & Hbus & Herr)
                     |[(Hsome & -> & Hbus & Herr)|(Hsome & _ & Herr)]].
  - rewrite Hok. unfold coro_bus_errno. rewrite Herr.
    rewrite decide_True by done. right.
    by rewrite (find_channel_bus _ _ _ Hbus).
  - rewrite Hok. unfold coro_bus_errno. rewrite Herr.
    rewrite decide_False by (by intros ?).
    rewrite (find_channel_bus _ _ _ Hbus).  by destruct Hsome as [? ->].
  - destruct (ok rc1); [left; by rewrite wake_if_errno|].
    unfold coro_bus_errno. rewrite Herr. rewrite decide_True by done.
    by left.
Qed.

Lemma retry_loop_failure sched w rc w' :
  bus_wf w → F → Forall keeps_wf sched → loop sched w = Some (rc, w') →
  rc < 0 →
  global_error (proc w') = CORO_BUS_ERR_NO_CHANNEL ∧
  find_channel w' channel = None.
Proof.
  intros Hwf HF.
  apply (retry_loop_spec attempt ok cond queue k self channel
           bus_wf keeps_wf
           (λ rc w', rc < 0 →
                     global_error (proc w') = CORO_BUS_ERR_NO_CHANNEL ∧
                     find_channel w' channel = None)); [|done].
  intros x Hx. destruct (Hfacts x) as (_ & Hwf1 & Hcases).
  destruct (attempt x) as [rc1 x1]. simpl in Hcases, Hwf1.
  specialize (Hwf1 Hx).
  destruct Hcases as [(Hnone & -> & Hbus & Herr)
                     |[(Hsome & -> & Hbus & Herr)|(Hsome & Hfits & Herr)]].
  - rewrite Hok. unfold coro_bus_errno. rewrite Herr.
    rewrite decide_True by done. intros _.
    by rewrite (find_channel_bus _ _ _ Hbus).
  - rewrite Hok. unfold coro_bus_errno. rewrite Herr.
    rewrite decide_False by (by intros ?).
    rewrite (find_channel_bus _ _ _ Hbus). destruct Hsome as [? ->].
    intros others Hothers. by apply suspend_this_wf.
  - rewrite Hfits by done. intros Hneg.
    pose proof (Hnonneg rc1 (Hfits (conj Hx HF))). lia.
Qed.

Lemma retry_loop_writes sched w rc w' :
  Forall keeps_writes sched → loop sched w = Some (rc, w') →
  (errno_writes (proc w) < errno_writes (proc w'))%nat.
Proof.
  apply (retry_loop_spec attempt ok cond queue k self channel
           (λ x, errno_writes (proc w) ≤ errno_writes (proc x))%nat
           keeps_writes
           (λ _ w', errno_writes (proc w) < errno_writes (proc w'))%nat);
    [|done].
  intros x Hx. destruct (Hfacts x) as (Hwr & _ & _).
  destruct (attempt x) as [rc1 x1]. simpl in Hwr.
  destruct (ok rc1); [rewrite wake_if_writes; lia|].
  destruct (decide _); [lia|].
  destruct (find_channel x1 channel); [|simpl; lia].
  intros others Hothers.
  pose proof (suspend_this_writes self channel k others x1 Hothers). lia.
Qed.
End blocking.

(** ** [coro_bus_broadcast] *)

Lemma broadcast_deliver_proc word slots : ∀ p,
  ∃ evs, (broadcast_deliver slots word p).2 = emit_all evs p.
Proof.
  induction slots as [|[ch|] slots IH]; intros p; cbn [broadcast_deliver].
  - exists []. by rewrite emit_all_nil.
  - destruct (IH (wakeup_queue_wakeup_first
                    (recv_queue (broadcast_put word ch)) p)) as [evs Hevs].
    destruct (broadcast_deliver slots word _) as [rest p']. simpl in *.
    rewrite Hevs, wakeup_first_events, emit_all_app. eauto.
  - destruct (IH p) as [evs Hevs].
    destruct (broadcast_deliver slots word p) as [rest p']. simpl in *. eauto.
Qed.

Lemma try_broadcast_facts word w :
  let r := coro_bus_try_broadcast w word in
  errno_writes (proc r.2) = S (errno_writes (proc w)) ∧
  (bus_wf w → bus_wf r.2) ∧
  (r.1 = 0 ∧ global_error (proc r.2) = CORO_BUS_ERR_NONE
   ∨
   r.1 = -1 ∧ bus r.2 = bus w ∧
   global_error (proc r.2) = CORO_BUS_ERR_WOULD_BLOCK
   ∨
   r.1 = -1 ∧ bus r.2 = bus w ∧
   global_error (proc r.2) = CORO_BUS_ERR_NO_CHANNEL ∧ open_channels w = []).
Proof.
  unfold coro_bus_try_broadcast.
  destruct (broadcast_scan (channels (bus w)) 0) as [n|] eqn:Hscan; simpl;
    [|split_and!; [done..|]; right; by left].
  destruct (Z.eqb_spec n 0) as [->|Hn]; simpl.
  - split_and!; [done..|]. right. right. split_and!; [done..|].
    apply broadcast_scan_room in Hscan as [_ Hlen]. unfold open_channels.
    destruct (omap id (channels (bus w))); [done|]. simpl in Hlen. lia.
  - destruct (broadcast_deliver_proc word (channels (bus w)) (proc w))
      as [evs Hevs].
    pose proof (broadcast_scan_room _ _ _ Hscan) as [Hroom _].
    pose proof (broadcast_deliver_spec word (channels (bus w)) (proc w))
      as Hspec.
    destruct (broadcast_deliver (channels (bus w)) word (proc w))
      as [slots p]. simpl in *. subst p.
    split_and!; [done| |by left].
    intros [Hall Hcnt]. specialize (Hspec Hall Hroom). simplify_eq.
    split.
    + simpl. apply Forall_fmap, Forall_forall. intros slot Hin.
      pose proof (proj1 (Forall_forall _ _) Hall slot Hin) as Hch.
      pose proof (proj1 (Forall_forall _ _) Hroom slot Hin) as Hne.
      destruct slot as [ch|]; simpl; [|done].
      apply chan_push_wf; [done|]. by apply Hne.
    + unfold channel_count in *. simpl. by rewrite length_fmap.
Qed.

Section broadcast_loop.
Variable self : coro.
Variable word : Z.
Variable I : world → Prop.
Variable G : (world → world) → Prop.
Variable P : Z → world → Prop.

Hypothesis turn : ∀ w, I w →
  let '(rc, w1) := coro_bus_try_broadcast w word in
  if rc =? 0 then P 0 w1
  else if decide (coro_bus_errno (proc w1) ≠ CORO_BUS_ERR_WOULD_BLOCK)
  then P (-1) w1
  else I w1 ∧
       ∀ wait_idx others,
         G others →
         I (wakeup_queue_suspend_this self (Z.of_nat wait_idx) SendQueue
              others w1).

Lemma broadcast_loop_spec fuel : ∀ sched w rc w',
  I w → Forall G sched →
  coro_bus_broadcast fuel sched self w word = Some (rc, w') → P rc w'.
Proof.
  induction fuel as [|fuel IH]; intros sched w rc w' HI HG Hrun;
    simpl in Hrun; [done|].
  pose proof (turn w HI) as Hturn.
  destruct (coro_bus_try_broadcast w word) as [rc1 w1].
  destruct (rc1 =? 0); [by simplify_eq|].
  destruct (decide _); [by simplify_eq|].
  destruct Hturn as [HI1 Hsusp].
  destruct (first_full_slot (channels (bus w1)) 0) as [wait_idx|];
    [|by eapply IH].
  destruct (channels (bus w1) !! wait_idx) as [[ch|]|]; [|by eapply IH..].
  destruct sched as [|others sched]; [done|].
  apply Forall_cons in HG as [Hothers HG].
  eapply IH; [|done|done]. by apply Hsusp.
Qed.
End broadcast_loop.

Lemma broadcast_wf fuel sched self w word rc w' :
  bus_wf w → Forall keeps_wf sched →
  coro_bus_broadcast fuel sched self w word = Some (rc, w') → bus_wf w'.
Proof.
  apply (broadcast_loop_spec self word bus_wf keeps_wf (λ _ w', bus_wf w')).
  intros x Hx. destruct (try_broadcast_facts word x) as (_ & Hwf & _).
  destruct (coro_bus_try_broadcast x word) as [rc1 x1]. simpl in Hwf.
  specialize (Hwf Hx). destruct (rc1 =? 0); [done|].
  destruct (decide _); [done|]. split; [done|].
  intros wait_idx others Hothers. by apply suspend_this_wf.
Qed.

Lemma broadcast_errno fuel sched self w word rc w' :
  coro_bus_broadcast fuel sched self w word = Some (rc, w') →
  rc = 0 ∧ global_error (proc w') = CORO_BUS_ERR_NONE ∨
  rc = -1 ∧ global_error (proc w') = CORO_BUS_ERR_NO_CHANNEL ∧
  open_channels w' = [].
Proof.
  intros Hrun.
  eapply (broadcast_loop_spec self word (λ _, True) (λ _, True)
            (λ rc w', rc = 0 ∧ global_error (proc w') = CORO_BUS_ERR_NONE ∨
                      rc = -1 ∧
                      global_error (proc w') = CORO_BUS_ERR_NO_CHANNEL ∧
                      open_channels w' = []));
    [|done|by apply Forall_true|exact Hrun].
  intros x _. destruct (try_broadcast_facts word x) as (_ & _ & Hcases).
  destruct (coro_bus_try_broadcast x word) as [rc1 x1]. simpl in Hcases.
  unfold coro_bus_errno.
  destruct Hcases as [(-> & Herr)
                     |[(-> & Hbus & Herr)|(-> & Hbus & Herr & Hnone)]];
    simpl; rewrite Herr.
  - by left.
  - by rewrite decide_False by (by intros ?).
  - rewrite decide_True by done. right. split_and!; [done..|].
    unfold open_channels. by rewrite Hbus.
Qed.

Lemma broadcast_writes fuel sched self w word rc w' :
  Forall keeps_writes sched →
  coro_bus_broadcast fuel sched self w word = Some (rc, w') →
  (errno_writes (proc w) < errno_writes (proc w'))%nat.
Proof.
  apply (broadcast_loop_spec self word
           (λ x, errno_writes (proc w) ≤ errno_writes (proc x))%nat
           keeps_writes
           (λ _ w', errno_writes (proc w) < errno_writes (proc w'))%nat);
    [|done].
  intros x Hx. destruct (try_broadcast_facts word x) as (Hwr & _ & _).
  destruct (coro_bus_try_broadcast x word) as [rc1 x1]. simpl in Hwr.
  destruct (rc1 =? 0); [lia|]. destruct (decide _); [lia|].
  split; [lia|]. intros wait_idx others Hothers.
  pose proof (suspend_this_writes self (Z.of_nat wait_idx) SendQueue others
                x1 Hothers). lia.
Qed.

(** ** The blocking calls through [run_call] *)

Lemma run_call_blocking c w r w' :
  blocking c → run_call c w = Some (r, w') →
  ∃ rc, r = Some rc ∧
    match c with
    | call_send sched self channel word =>
        retry_loop (λ w, coro_bus_try_send w channel word) (λ rc, rc =? 0)
          (λ ch, size ch <? size_limit ch) send_queue SendQueue self channel
          sched w = Some (rc, w')
    | call_recv sched self channel out =>
        retry_loop (try_recv_rc channel out) (λ rc, rc =? 0)
          (λ ch, size ch >? 0) recv_queue RecvQueue self channel sched w
        = Some (rc, w')
    | call_send_v sched self channel words =>
        retry_loop (λ w, coro_bus_try_send_v w channel words)
          (λ rc, rc >=? 0) (λ ch, size ch <? size_limit ch) send_queue
          SendQueue self channel sched w = Some (rc, w')
    | call_recv_v sched self channel capacity =>
        retry_loop (try_recv_v_rc channel capacity) (λ rc, rc >=? 0)
          (λ ch, size ch >? 0) recv_queue RecvQueue self channel sched w
        = Some (rc, w')
    | call_broadcast fuel sched self word =>
        coro_bus_broadcast fuel sched self w word = Some (rc, w')
    | _ => True
    end.
Proof.
  destruct c; simpl; try done; intros _ Hrun.
  - rewrite <- coro_bus_send_retry.
    destruct (coro_bus_send _ _ _ _ _) as [[rc w1]|]; simplify_eq/=. eauto.
  - rewrite <- coro_bus_recv_retry.
    destruct (coro_bus_recv _ _ _ _ _) as [[[rc st] w1]|]; simplify_eq/=.
    eauto.
  - destruct (coro_bus_broadcast _ _ _ _ _) as [[rc w1]|]; simplify_eq/=.
    eauto.
  - rewrite <- coro_bus_send_v_retry.
    destruct (coro_bus_send_v _ _ _ _ _) as [[rc w1]|]; simplify_eq/=. eauto.
  - rewrite <- coro_bus_recv_v_retry.
    destruct (coro_bus_recv_v _ _ _ _ _) as [[[rc st] w1]|]; simplify_eq/=.
    eauto.
Qed.

Lemma eqb_nonneg rc : (rc =? 0) = true → 0 ≤ rc.
Proof. intros ?%Z.eqb_eq. lia. Qed.

Lemma geb_nonneg rc : (rc >=? 0) = true → 0 ≤ rc.
Proof. intros H. apply Z.geb_le in H. lia. Qed.

Lemma try_send_facts_wf channel word w :
  attempt_facts channel (λ rc, rc =? 0) (bus_wf w ∧ True) w
    (coro_bus_try_send w channel word).1 (coro_bus_try_send w channel word).2.
Proof. eapply attempt_facts_weaken, try_send_facts. tauto. Qed.

Lemma try_recv_facts_wf channel out w :
  attempt_facts channel (λ rc, rc =? 0) (bus_wf w ∧ True) w
    (try_recv_rc channel out w).1 (try_recv_rc channel out w).2.
Proof. eapply attempt_facts_weaken, try_recv_facts. tauto. Qed.

Lemma try_send_v_facts_wf channel words w :
  attempt_facts channel (λ rc, rc >=? 0)
    (bus_wf w ∧ Z.of_nat (length words) ≤ INT_MAX) w
    (coro_bus_try_send_v w channel words).1
    (coro_bus_try_send_v w channel words).2.
Proof. eapply attempt_facts_weaken, try_send_v_facts. tauto. Qed.

Lemma blocking_errno c w rc w' :
  blocking c → call_typed c → run_call c w = Some (Some rc, w') →
  global_error (proc w') = CORO_BUS_ERR_NONE ∨
  rc = -1 ∧ global_error (proc w') = CORO_BUS_ERR_NO_CHANNEL ∧
  target_gone c w'.
Proof.
  intros Hb Hty Hrun.
  destruct (run_call_blocking _ _ _ _ Hb Hrun) as (rc' & [= <-] & Hloop).
  destruct c; try done; simpl in *.
  - eapply retry_loop_errno; [apply try_send_facts_wf|done|exact Hloop].
  - eapply retry_loop_errno; [apply try_recv_facts_wf|done|exact Hloop].
  - apply broadcast_errno in Hloop as [[_ ?]|?]; auto.
  - eapply retry_loop_errno; [apply try_send_v_facts_wf|done|exact Hloop].
  - eapply retry_loop_errno;
      [intros; by apply (try_recv_v_facts channel capacity)|done
      |exact Hloop].
Qed.

(** ** The error code *)

Lemma attempt_facts_reported channel ok fits w rc w1 :
  attempt_facts channel ok fits w rc w1 →
  errno_reported rc (proc w) (proc w1).
Proof.
  intros (Hwr & _ & [(_ & -> & _ & Herr)|[(_ & -> & _ & Herr)|(_ & _ & Herr)]]);
    unfold errno_reported; rewrite Hwr, Herr; split_and!; try done; lia.
Qed.

Lemma channel_close_untouched w channel :
  errno_untouched (proc w) (proc (coro_bus_channel_close w channel)).
Proof.
  destruct (find_channel w channel) as [ch|] eqn:Hfind.
  - by rewrite (channel_close_open _ _ ch).
  - by rewrite channel_close_invalid.
Qed.

Lemma delete_loop_untouched n : ∀ i w,
  errno_untouched (proc w) (proc (delete_loop n i w)).
Proof.
  induction n as [|n IH]; intros i w; simpl; [done|].
  destruct (channels (bus w) !! Z.to_nat i) as [[ch|]|]; [|apply IH..].
  destruct (IH (i + 1) (coro_bus_channel_close w i)) as [E1 E2].
  destruct (channel_close_untouched w i) as [E3 E4].
  split; congruence.
Qed.

Lemma coro_bus_delete_untouched b p : errno_untouched p (coro_bus_delete b p).
Proof.
  destruct b as [b|]; [|done]. unfold coro_bus_delete.
  by destruct (delete_loop_untouched (length (channels b)) 0 (mk_world b p))
    as [? ?].
Qed.

Lemma blocking_reported c w rc w' :
  blocking c → call_typed c → Forall keeps_writes (call_schedule c) →
  run_call c w = Some (Some rc, w') →
  errno_reported rc (proc w) (proc w').
Proof.
  intros Hb Hty Hsched Hrun.
  pose proof (blocking_errno c w rc w' Hb Hty Hrun) as Hcases.
  assert (errno_writes (proc w) < errno_writes (proc w'))%nat as Hwr.
  { destruct (run_call_blocking _ _ _ _ Hb Hrun) as (rc' & [= <-] & Hloop).
    destruct c; try done; simpl in *.
    - eapply retry_loop_writes; [apply try_send_facts_wf|done|exact Hloop].
    - eapply retry_loop_writes; [apply try_recv_facts_wf|done|exact Hloop].
    - by eapply broadcast_writes.
    - eapply retry_loop_writes; [apply try_send_v_facts_wf|done|exact Hloop].
    - eapply retry_loop_writes;
        [intros; by apply (try_recv_v_facts channel capacity)|done
        |exact Hloop]. }
  split_and!; [done| |].
  - intros Hrc. destruct Hcases as [?|(-> & _)]; [done|lia].
  - intros Herr. by destruct Hcases as [?|(-> & _)].
Qed.

Lemma try_call_reported c w rc w' :
  match c with
  | call_try_send _ _ | call_try_recv _ _ | call_try_broadcast _
  | call_try_send_v _ _ | call_try_recv_v _ _ => True
  | _ => False
  end →
  call_typed c → run_call c w = Some (Some rc, w') →
  errno_reported rc (proc w) (proc w').
Proof.
  destruct c; try done; simpl; intros _ Hty Hrun.
  - pose proof (try_send_facts channel word w) as Hf.
    destruct (coro_bus_try_send w channel word). simplify_eq/=.
    by eapply attempt_facts_reported.
  - pose proof (try_recv_facts channel out w) as Hf. unfold try_recv_rc in Hf.
    destruct (coro_bus_try_recv w channel out) as [[? ?] ?]. simplify_eq/=.
    by eapply attempt_facts_reported.
  - destruct (try_broadcast_facts word w) as (Hwr & _ & Hcases).
    destruct (coro_bus_try_broadcast w word). simplify_eq/=.
    unfold errno_reported. rewrite Hwr.
    destruct Hcases as [(-> & ->)|[(-> & _ & ->)|(-> & _ & -> & _)]];
      split_and!; try done; lia.
  - pose proof (try_send_v_facts channel words w) as Hf.
    destruct (coro_bus_try_send_v w channel words). simplify_eq/=.
    by eapply attempt_facts_reported.
  - pose proof (try_recv_v_facts channel capacity w Hty) as Hf.
    unfold try_recv_v_rc in Hf.
    destruct (coro_bus_try_recv_v w channel capacity) as [[? ?] ?].
    simplify_eq/=. by eapply attempt_facts_reported.
Qed.

Lemma run_call_value c w r w' :
  (∀ channel, c ≠ call_channel_close channel) →
  run_call c w = Some (r, w') → ∃ rc, r = Some rc.
Proof.
  intros Hc Hrun. destruct c; simpl in Hrun.
  - destruct (coro_bus_channel_open _ _ _ _); simplify_eq; eauto.
  - by destruct (Hc channel).
  - destruct (coro_bus_try_send _ _ _); simplify_eq; eauto.
  - destruct (coro_bus_try_recv _ _ _) as [[? ?] ?]; simplify_eq; eauto.
  - destruct (coro_bus_try_broadcast _ _); simplify_eq; eauto.
  - destruct (coro_bus_try_send_v _ _ _); simplify_eq; eauto.
  - destruct (coro_bus_try_recv_v _ _ _) as [[? ?] ?]; simplify_eq; eauto.
  - destruct (coro_bus_send _ _ _ _ _) as [[? ?]|]; simplify_eq/=; eauto.
  - destruct (coro_bus_recv _ _ _ _ _) as [[[? ?] ?]|]; simplify_eq/=; eauto.
  - destruct (coro_bus_broadcast _ _ _ _ _) as [[? ?]|]; simplify_eq/=; eauto.
  - destruct (coro_bus_send_v _ _ _ _ _) as [[? ?]|]; simplify_eq/=; eauto.
  - destruct (coro_bus_recv_v _ _ _ _ _) as [[[? ?] ?]|]; simplify_eq/=;
      eauto.
Qed.

Lemma run_call_writes c w r w' :
  ¬ blocking c → call_typed c → run_call c w = Some (r, w') →
  (errno_writes (proc w) ≤ errno_writes (proc w'))%nat.
Proof.
  intros Hnb Hty Hrun.
  destruct c; try (by destruct Hnb);
    try (assert (∃ rc, r = Some rc) as [rc ->]
           by (eapply run_call_value; [|exact Hrun]; done);
         eapply Nat.lt_le_incl,
           (λ H, proj1 (try_call_reported _ w rc w' H Hty Hrun)); done).
  - simpl in Hrun.
    destruct (coro_bus_channel_open realloc_ok new_ok w limit) eqn:Hopen;
      simplify_eq.
    + apply channel_open_Opened in Hopen as (ch & _ & -> & _). simpl. lia.
    + by apply channel_open_failed in Hopen as [-> _].
  - simpl in Hrun. simplify_eq.
    destruct (channel_close_untouched w channel) as [_ ->]. done.
Qed.

Lemma atomic_step_keeps_writes step : atomic_step step → keeps_writes step.
Proof.
  intros [c Hnb Hty|err|self channel k|self|cond queue channel] x.
  - unfold call_step. destruct (run_call c x) as [[r x']|] eqn:Hrun; [|done].
    by eapply run_call_writes.
  - simpl. lia.
  - simpl. by rewrite link_entry_proc.
  - done.
  - by rewrite wake_if_writes.
Qed.

Lemma cooperative_keeps_writes others :
  cooperative others → keeps_writes others.
Proof.
  intros (steps & Hsteps & Heq) x. rewrite Heq. clear Heq.
  revert x. induction Hsteps as [|step steps Hstep _ IH]; intros x;
    simpl; [done|].
  etrans; [apply (atomic_step_keeps_writes _ Hstep)|apply IH].
Qed.

Lemma cooperative_schedule_writes sched :
  Forall cooperative sched → Forall keeps_writes sched.
Proof.
  intros H. eapply Forall_impl; [exact H|]. apply cooperative_keeps_writes.
Qed.

(** C4, as amended. Every entry point that returns a status stores the
    error code before it returns, [CORO_BUS_ERR_NONE] when it succeeds:
    the non-blocking and the blocking operations, [coro_bus_channel_open]
    when it returns a descriptor, and [coro_bus_new] when it returns a bus.
    [coro_bus_channel_close] and [coro_bus_delete] do not touch the error
    code, and neither do the allocation failure paths of
    [coro_bus_channel_open] and [coro_bus_new]. *)
Theorem errno_policy :
  (∀ c w r w',
     call_typed c → Forall cooperative (call_schedule c) →
     run_call c w = Some (r, w') →
     match c with
     | call_channel_close _ =>
         r = None ∧ errno_untouched (proc w) (proc w')
     | call_channel_open _ _ _ =>
         r = Some (-1) ∧ errno_untouched (proc w) (proc w') ∨
         ∃ d, r = Some d ∧ 0 ≤ d ∧
              global_error (proc w') = CORO_BUS_ERR_NONE ∧
              errno_writes (proc w') = S (errno_writes (proc w))
     | _ => ∃ rc, r = Some rc ∧ errno_reported rc (proc w) (proc w')
     end) ∧
  (∀ p,
     is_Some (coro_bus_new true p).1 ∧
     global_error (coro_bus_new true p).2 = CORO_BUS_ERR_NONE ∧
     errno_writes (coro_bus_new true p).2 = S (errno_writes p)) ∧
  (∀ p,
     (coro_bus_new false p).1 = None ∧
     errno_untouched p (coro_bus_new false p).2) ∧
  (∀ b p, errno_untouched p (coro_bus_delete b p)).
Proof.
  split_and!.
  - intros c w r w' Hty Hsched%cooperative_schedule_writes Hrun.
    destruct c;
      try (assert (∃ rc, r = Some rc) as [rc ->]
             by (eapply run_call_value; [|exact Hrun]; done);
           exists rc; split; [done|];
           first [ by refine (try_call_reported _ w rc w' _ Hty Hrun)
                 | by refine (blocking_reported _ w rc w' _ Hty Hsched Hrun) ]).
    + simpl in Hrun.
      destruct (coro_bus_channel_open realloc_ok new_ok w limit)
        as [d w1|w1| |] eqn:Hopen; simplify_eq/=.
      * right. exists d.
        apply channel_open_Opened in Hopen
          as (ch & _ & -> & [(i & -> & _)|(_ & -> & _)]);
          (split_and!; [done| |done..]); unfold channel_count; lia.
      * left. split; [done|].
        by apply channel_open_failed in Hopen as [-> _].
    + simpl in Hrun. simplify_eq. split; [done|].
      apply channel_close_untouched.
  - intros p. simpl. split_and!; [by eexists|done..].
  - done.
  - apply coro_bus_delete_untouched.
Qed.

Lemma errno_policy_witness :
  errno_untouched (proc sample_world4)
    (proc (coro_bus_channel_close sample_world4 0)) ∧
  ∃ w', run_call (call_try_recv 0 NonNull) sample_world4 =
        Some (Some 0, w') ∧
        errno_reported 0 (proc sample_world4) (proc w').
Proof.
  destruct errno_policy as (Hcalls & _).
  split.
  - by destruct (Hcalls (call_channel_close 0) sample_world4 _ _ I
                   (Forall_nil_2 _) eq_refl) as [_ ?].
  - eexists. split; [reflexivity|].
    by destruct (Hcalls (call_try_recv 0 NonNull) sample_world4 _ _ I
                   (Forall_nil_2 _) eq_refl) as (rc & [= <-] & ?).
Defined.

(** C4 as stated has [coro_bus_channel_close] and [coro_bus_delete] store
    [CORO_BUS_ERR_NONE]; they return with the error code as they found it. *)
Lemma close_and_delete_keep_errno :
  find_channel sample_world4 0 = Some (mk_channel 2 [3%nat] [] [8; 7] 1 2) ∧
  global_error (proc sample_world4) = CORO_BUS_ERR_WOULD_BLOCK ∧
  global_error (proc (coro_bus_channel_close sample_world4 0)) =
    CORO_BUS_ERR_WOULD_BLOCK ∧
  errno_writes (proc (coro_bus_channel_close sample_world4 0)) =
    errno_writes (proc sample_world4) ∧
  global_error (coro_bus_delete (Some (bus sample_world4))
                  (proc sample_world4)) = CORO_BUS_ERR_WOULD_BLOCK ∧
  errno_writes (coro_bus_delete (Some (bus sample_world4))
                  (proc sample_world4)) = errno_writes (proc sample_world4) ∧
  global_error (proc (coro_bus_channel_close sample_world4 0)) ≠
    CORO_BUS_ERR_NONE.
Proof. by split_and!. Qed.

(** ** The invariant *)

Lemma channel_close_wf w channel :
  bus_wf w → bus_wf (coro_bus_channel_close w channel).
Proof.
  intros Hwf. destruct (find_channel w channel) as [ch|] eqn:Hfind.
  - rewrite (channel_close_open _ _ ch Hfind). destruct Hwf as [Hall Hcnt].
    split; simpl.
    + by apply Forall_insert.
    + unfold channel_count in *. simpl. by rewrite length_insert.
  - by rewrite channel_close_invalid.
Qed.

Lemma channel_open_wf realloc_ok new_ok w limit d w' :
  bus_wf w → 0 ≤ limit →
  coro_bus_channel_open realloc_ok new_ok w limit = Opened d w' → bus_wf w'.
Proof.
  intros [Hall Hcnt] Hlimit Hopen.
  apply channel_open_Opened in Hopen
    as (ch & Hinit & _ & [(i & _ & _ & Hslots)|(_ & _ & _ & Hne & Hslots)]);
    apply channel_init_Some in Hinit as (_ & _ & _ & _ & _ & Hch);
    unfold bus_wf, channel_count in *; rewrite Hslots; split.
  - apply Forall_insert; [done|]. by apply Hch.
  - by rewrite length_insert.
  - apply Forall_app. split; [done|]. constructor; [by apply Hch|done].
  - rewrite length_app. simpl. lia.
Qed.

Lemma run_call_wf c w r w' :
  bus_wf w → call_typed c → Forall keeps_wf (call_schedule c) →
  run_call c w = Some (r, w') → bus_wf w'.
Proof.
  intros Hwf Hty Hsched Hrun.
  assert (blocking c ∨ ¬ blocking c) as [Hb|Hnb]
    by (destruct c; simpl; tauto).
  - assert (∃ rc, r = Some rc) as [rc ->].
    { eapply run_call_value; [|exact Hrun]. by destruct c. }
    destruct (run_call_blocking _ _ _ _ Hb Hrun) as (rc' & [= <-] & Hloop).
    destruct c; try done; simpl in *.
    + eapply retry_loop_wf; [apply try_send_facts_wf|done|done|exact Hloop].
    + eapply retry_loop_wf; [apply try_recv_facts_wf|done|done|exact Hloop].
    + by eapply broadcast_wf.
    + eapply retry_loop_wf; [apply try_send_v_facts_wf|done|done|exact Hloop].
    + eapply retry_loop_wf;
        [intros; by apply (try_recv_v_facts channel capacity)|done|done
        |exact Hloop].
  - destruct c; simpl in *; try (by destruct Hnb).
    + destruct (coro_bus_channel_open realloc_ok new_ok w limit) eqn:Hopen;
        simplify_eq; [by eapply channel_open_wf|].
      by apply channel_open_failed in Hopen as [-> _].
    + simplify_eq. by apply channel_close_wf.
    + destruct (try_send_facts channel word w) as (_ & Hw & _).
      destruct (coro_bus_try_send w channel word). simplify_eq/=. auto.
    + destruct (try_recv_facts channel out w) as (_ & Hw & _).
      unfold try_recv_rc in Hw.
      destruct (coro_bus_try_recv w channel out) as [[? ?] ?].
      simplify_eq/=. auto.
    + destruct (try_broadcast_facts word w) as (_ & Hw & _).
      destruct (coro_bus_try_broadcast w word). simplify_eq/=. auto.
    + destruct (try_send_v_facts channel words w) as (_ & Hw & _).
      destruct (coro_bus_try_send_v w channel words). simplify_eq/=. auto.
    + destruct (try_recv_v_facts channel capacity w Hty) as (_ & Hw & _).
      unfold try_recv_v_rc in Hw.
      destruct (coro_bus_try_recv_v w channel capacity) as [[? ?] ?].
      simplify_eq/=. auto.
Qed.

Lemma call_step_keeps_wf c :
  call_typed c → Forall keeps_wf (call_schedule c) → keeps_wf (call_step c).
Proof.
  intros Hty Hsched x Hx. unfold call_step.
  destruct (run_call c x) as [[r x']|] eqn:Hrun; [|done].
  by eapply run_call_wf.
Qed.

Lemma call_schedule_not_blocking c : ¬ blocking c → call_schedule c = [].
Proof. destruct c; simpl; tauto. Qed.

Lemma atomic_step_keeps_wf step : atomic_step step → keeps_wf step.
Proof.
  intros [c Hnb Hty|err|self channel k|self|cond queue channel] x Hx.
  - apply call_step_keeps_wf; [done| |done].
    rewrite call_schedule_not_blocking by done. constructor.
  - done.
  - by apply bus_wf_with_proc, link_entry_wf.
  - by apply unlink_entry_wf.
  - by apply wake_if_wf.
Qed.

Lemma cooperative_keeps_wf others : cooperative others → keeps_wf others.
Proof.
  intros (steps & Hsteps & Heq) x Hx. rewrite Heq. clear Heq.
  revert x Hx. induction Hsteps as [|step steps Hstep _ IH]; intros x Hx;
    simpl; [done|].
  by apply IH, atomic_step_keeps_wf.
Qed.

Lemma cooperative_schedule_wf sched :
  Forall cooperative sched → Forall keeps_wf sched.
Proof.
  intros H. eapply Forall_impl; [exact H|]. apply cooperative_keeps_wf.
Qed.

Lemma reachable_wf w : reachable w → bus_wf w.
Proof.
  induction 1 as [p b p' Hnew|c w r w' _ IH Hty Hsched Hrun].
  - injection Hnew as <- <-. split; [constructor|].
    unfold channel_count, INT_MAX. simpl. lia.
  - eapply run_call_wf; [done..| |done].
    by apply cooperative_schedule_wf.
Qed.

(** C3. In every state a bus reaches, every channel has
    [0 ≤ size ≤ size_limit] and [0 ≤ head < max(size_limit, 1)]; a channel
    opened with capacity 0 keeps [size = 0], no send raises it. *)
Theorem channel_invariant w i ch :
  reachable w → channels (bus w) !! i = Some (Some ch) →
  0 ≤ size ch ≤ size_limit ch ∧
  0 ≤ head ch < Z.max (size_limit ch) 1 ∧
  (size_limit ch = 0 → size ch = 0 ∧ head ch = 0).
Proof.
  intros Hreach Hl.
  destruct (bus_wf_lookup _ _ _ (reachable_wf _ Hreach) Hl) as (? & ? & _).
  lia.
Qed.

Lemma call_step_reachable c w :
  reachable w → call_typed c → Forall cooperative (call_schedule c) →
  reachable (call_step c w).
Proof.
  intros Hw Hty Hsched. unfold call_step.
  destruct (run_call c w) as [[r w']|] eqn:Hrun; [|done].
  by eapply reach_call.
Qed.

Lemma sample_run_reachable : reachable sample_run.
Proof.
  unfold sample_run.
  repeat (apply call_step_reachable; [|done|apply Forall_nil_2]).
  by apply (reach_new quiet).
Qed.

Lemma channel_invariant_witness :
  reachable sample_run ∧
  channels (bus sample_run) !! 0%nat = Some (Some (mk_channel 0 [] [] [] 0 0)) ∧
  channels (bus sample_run) !! 1%nat = Some (Some (mk_channel 1 [] [] [6] 0 1)) ∧
  (0 ≤ 0 ≤ 0 ∧ 0 ≤ 0 < Z.max 0 1 ∧ (0 = 0 → 0 = 0 ∧ 0 = 0)).
Proof.
  split; [apply sample_run_reachable|].
  split; [reflexivity|]. split; [reflexivity|].
  exact (channel_invariant sample_run 0%nat _ sample_run_reachable eq_refl).
Defined.

(** ** The results of the blocking calls *)

(** C8. A blocking variant that returns never leaves
    [CORO_BUS_ERR_WOULD_BLOCK]: it returns after a retry that succeeded,
    with [CORO_BUS_ERR_NONE], or it returns -1 with [CORO_BUS_ERR_NO_CHANNEL]
    and its descriptor finds no channel (for a broadcast: no channel is
    open). Whatever the other coroutines do while the caller is suspended. A
    negative result always comes with [CORO_BUS_ERR_NO_CHANNEL] when the
    bus is well-formed, the other coroutines make atomic steps and the count
    of a vectorised call fits an [int]. *)
Theorem blocking_never_would_block c w rc w' :
  blocking c → call_typed c → run_call c w = Some (Some rc, w') →
  global_error (proc w') ≠ CORO_BUS_ERR_WOULD_BLOCK ∧
  (global_error (proc w') = CORO_BUS_ERR_NONE ∨
   rc = -1 ∧ global_error (proc w') = CORO_BUS_ERR_NO_CHANNEL ∧
   target_gone c w') ∧
  (bus_wf w → Forall cooperative (call_schedule c) → batch_fits c → rc < 0 →
   global_error (proc w') = CORO_BUS_ERR_NO_CHANNEL ∧ target_gone c w').
Proof.
  intros Hb Hty Hrun.
  destruct (run_call_blocking _ _ _ _ Hb Hrun) as (rc' & [= <-] & Hloop).
  pose proof (blocking_errno c w rc w' Hb Hty Hrun) as Hcases.
  split_and!; [|done|].
  - destruct Hcases as [->|(_ & -> & _)]; done.
  - intros Hwf Hsched%cooperative_schedule_wf Hfits Hneg.
    destruct c; try done; simpl in *.
    + eapply retry_loop_failure;
        [apply try_send_facts_wf|done|apply eqb_nonneg|done|done|done
        |exact Hloop|done].
    + eapply retry_loop_failure;
        [apply try_recv_facts_wf|done|apply eqb_nonneg|done|done|done
        |exact Hloop|done].
    + apply broadcast_errno in Hloop as [[-> _]|(_ & ? & ?)]; [lia|done].
    + eapply retry_loop_failure;
        [apply try_send_v_facts_wf|done|apply geb_nonneg|done|exact Hfits
        |done|exact Hloop|done].
    + eapply retry_loop_failure;
        [intros; by apply (try_recv_v_facts channel capacity)|done
        |apply geb_nonneg|done|exact Hfits|done|exact Hloop|done].
Qed.

Lemma blocking_never_would_block_witness :
  ∃ w', run_call (call_send close_while_blocked 4%nat 0 9) sample_world5 =
        Some (Some (-1), w') ∧
        global_error (proc w') = CORO_BUS_ERR_NO_CHANNEL ∧
        find_channel w' 0 = None.
Proof.
  eexists. split; [reflexivity|].
  destruct (blocking_never_would_block
              (call_send close_while_blocked 4%nat 0 9) sample_world5 (-1) _
              I I eq_refl) as (_ & [Hnone|(_ & Herr & Hgone)] & _).
  - discriminate Hnone.
  - by split.
Defined.
